(** * sandbox_fs: path-admission oracle of the LD_PRELOAD filesystem shim

    Shallow embedding of [sandbox_fs.c] and proofs about its configuration
    loader, textual canonicalizer, admission oracle and interposed hooks.

    C strings are modelled as [string] (the bytes before the terminating
    NUL), nullable pointers as [option], sizes and C integers as [Z].
    [DEBUG_LOG] only writes to stderr and is left out. *)

From Stdlib Require Import ZArith List Bool Ascii String Lia DecimalString.
Import ListNotations.

Local Open Scope string_scope.
Local Open Scope Z_scope.

(** Constants that come from the system headers (Linux values). *)
Definition PATH_MAX : Z := 4096.          (* <limits.h> *)
Definition INT_MAX : Z := 2147483647.     (* <limits.h> *)
Definition AT_FDCWD : Z := -100.          (* <fcntl.h>  *)
Definition EACCES : Z := 13.              (* <errno.h>  *)
Definition MAX_BLOCKED_PATHS : nat := 64. (* sandbox_fs.c:34 *)
Definition DEFAULT_BLOCKED_PATHS : string := "/app:/.apps_data".

(* ====================================================================== *)
(** ** The C string primitives the shim uses *)
(* ====================================================================== *)

Module CStr.

Definition NUL : ascii := Ascii.zero.

Definition strlen (s : string) : Z := Z.of_nat (String.length s).

(** [s[i]]; position [String.length s] holds the terminating NUL. *)
Definition char_at (s : string) (i : nat) : ascii :=
  match String.get i s with
  | Some c => c
  | None => NUL
  end.

(** [strncmp(s1, s2, n) == 0] *)
Fixpoint strncmp_eq (s1 s2 : string) (n : nat) {struct n} : bool :=
  match n with
  | O => true
  | S n' =>
      match s1, s2 with
      | EmptyString, EmptyString => true
      | String a s1', String b s2' => Ascii.eqb a b && strncmp_eq s1' s2' n'
      | _, _ => false
      end
  end.

(** [strncpy(dst, src, n); dst[n] = '\0'] : the first [n] bytes of [src]. *)
Fixpoint strncpy (src : string) (n : nat) : string :=
  match n, src with
  | S n', String a src' => String a (strncpy src' n')
  | _, _ => EmptyString
  end.

(** [p = strrchr(s, c)] together with the two strings the callers take from
    it: the bytes before [p] (what [s] becomes after [*p = '\0']) and the
    bytes from [p + 1] on.  [None] is the NULL result. *)
Fixpoint strrchr (s : string) (c : ascii) : option (string * string) :=
  match s with
  | EmptyString => None
  | String a s' =>
      match strrchr s' c with
      | Some (before, after) => Some (String a before, after)
      | None => if Ascii.eqb a c then Some (EmptyString, s') else None
      end
  end.

(** One call of [strtok_r] on the remaining input: skip delimiters, then cut
    the token at the next delimiter.  Returns the token and what [saveptr]
    is left pointing at. *)
Fixpoint skip_delims (d : ascii) (s : string) : string :=
  match s with
  | String a s' => if Ascii.eqb a d then skip_delims d s' else s
  | EmptyString => EmptyString
  end.

Fixpoint cut_token (d : ascii) (s : string) : string * string :=
  match s with
  | EmptyString => (EmptyString, EmptyString)
  | String a s' =>
      if Ascii.eqb a d then (EmptyString, s')
      else let (t, rest) := cut_token d s' in (String a t, rest)
  end.

Definition strtok_r (d : ascii) (s : string) : option (string * string) :=
  match skip_delims d s with
  | EmptyString => None
  | s' => Some (cut_token d s')
  end.

(** All the tokens a [strtok_r] loop sees, in order: [cur] is the token being
    scanned. *)
Fixpoint tokens_from (d : ascii) (s : string) (cur : string) : list string :=
  match s with
  | EmptyString => if String.eqb cur "" then [] else [cur]
  | String a s' =>
      if Ascii.eqb a d
      then (if String.eqb cur "" then tokens_from d s' ""
            else cur :: tokens_from d s' "")
      else tokens_from d s' (cur ++ String a "")
  end.

Definition strtok_all (d : ascii) (s : string) : list string :=
  tokens_from d s "".

(** [snprintf(buf, size, "%s/%s", a, b)]: the text it formats. *)
Definition join_slash (a b : string) : string := a ++ "/" ++ b.

(** [snprintf(buf, size, "%s/%s", a, b)]: the [int] it returns and what it
    leaves in [buf].  The value is the length of the whole text, or -1 when
    that length is not an [int]; [buf] holds the first [size - 1] bytes of
    the text. *)
Definition snprintf_path (size : Z) (a b : string) : Z * string :=
  let text := join_slash a b in
  (if strlen text <=? INT_MAX then strlen text else -1,
   strncpy text (Z.to_nat (size - 1))).

(** [snprintf(buf, size, "%d", n)] *)
Definition fmt_d (n : Z) : string := NilZero.string_of_int (Z.to_int n).

Fixpoint no_char (c : ascii) (s : string) : bool :=
  match s with
  | EmptyString => true
  | String a s' => negb (Ascii.eqb a c) && no_char c s'
  end.

End CStr.

Import CStr.

(* ====================================================================== *)
(** ** The host process: everything the shim asks of its environment *)
(* ====================================================================== *)

Record Host := mkHost {
  (** [getenv(name)] *)
  host_getenv : string -> option string;
  (** whether [strdup(paths)] in [init_blocked_paths] succeeds *)
  host_strdup_paths : bool;
  (** whether [strdup(token)] succeeds for the k-th token of the loop *)
  host_strdup_token : nat -> bool;
  (** whether [strdup(absolute)] in [normalize_path] succeeds *)
  host_strdup_work : bool;
  (** the current working directory, [None] when [getcwd] cannot tell *)
  host_cwd : option string;
  (** [dlsym(RTLD_NEXT, "realpath")]: [None] is a failed lookup; the function
      itself answers [None] for a NULL result *)
  host_realpath : option (string -> option string);
  (** [dlsym(RTLD_NEXT, "readlink")]: the link text, [None] for [-1] *)
  host_readlink : option (string -> option string)
}.

(** [getcwd(buf, size)]: fails when the directory with its NUL does not fit. *)
Definition getcwd (w : Host) (size : Z) : option string :=
  match host_cwd w with
  | Some cwd => if strlen cwd + 1 <=? size then Some cwd else None
  | None => None
  end.

(* ====================================================================== *)
(** ** Textual canonicalization: [normalize_path] *)
(* ====================================================================== *)

(** Lines 123-140: the path made absolute in the [PATH_MAX] buffer. *)
Definition make_absolute (w : Host) (path : string) : option string :=
  if negb (Ascii.eqb (char_at path 0) "/")
  then
    match getcwd w PATH_MAX with
    | None => None
    | Some cwd =>
        if strlen cwd + 1 + strlen path >=? PATH_MAX then None
        else Some (cwd ++ "/" ++ path)
    end
  else
    if strlen path >=? PATH_MAX then None else Some path.

(** Lines 150-163: the component stack, in array order. *)
Fixpoint walk_components (tokens components : list string) : list string :=
  match tokens with
  | [] => components
  | token :: rest =>
      if String.eqb token "." then walk_components rest components
      else if String.eqb token ".." then
        walk_components rest (removelast components)
      else if 0 <? strlen token then
        walk_components rest (components ++ [token])
      else walk_components rest components
  end.

(** Lines 166-174: rebuild into [resolved], failing on overflow. *)
Fixpoint rebuild (components : list string) (resolved : string)
    (resolved_size : Z) : option string :=
  match components with
  | [] => Some resolved
  | c :: cs =>
      if strlen resolved + 1 + strlen c >=? resolved_size then None
      else rebuild cs (resolved ++ "/" ++ c) resolved_size
  end.

(** The program only calls this with [resolved_size = PATH_MAX]; the final
    [strcpy(resolved, "/")] needs a buffer of two bytes. *)
Definition normalize_path (w : Host) (path : option string)
    (resolved_size : Z) : option string :=
  match path with
  | None => None
  | Some p =>
      if resolved_size =? 0 then None
      else
        match make_absolute w p with
        | None => None
        | Some absolute =>
            if negb (host_strdup_work w) then None
            else
              let components :=
                walk_components (strtok_all "/" absolute) [] in
              match rebuild components "" resolved_size with
              | None => None
              | Some resolved =>
                  Some (if String.eqb resolved "" then "/" else resolved)
              end
        end
  end.

(* ====================================================================== *)
(** ** Process-wide state and the configuration loader *)
(* ====================================================================== *)

(** The file-scope variables of lines 37-42.  The array [blocked_paths]
    and [blocked_paths_count] are kept as one list: its length is the count.
    [init_once] is the [pthread_once_t] control: true once the routine ran. *)
Record Globals := mkGlobals {
  blocked_paths : list string;
  debug_enabled : bool;
  initialized : bool;
  init_failed : bool;
  init_once : bool
}.

Definition blocked_paths_count (g : Globals) : nat :=
  List.length (blocked_paths g).

(** The state at program start (static initializers). *)
Definition globals0 : Globals := mkGlobals [] false false false false.

(** Lines 85-91: [end] starts on the last byte and walks left over bytes
    equal to [c] while [end > token]; the first byte is never cut. *)
Fixpoint cut_trailing (c : ascii) (s : string) : string :=
  match s with
  | EmptyString => EmptyString
  | String a s' =>
      let r := cut_trailing c s' in
      if String.eqb r "" && Ascii.eqb a c then EmptyString else String a r
  end.

Definition strip_trailing (c : ascii) (token : string) : string :=
  match token with
  | EmptyString => EmptyString
  | String a s' => String a (cut_trailing c s')
  end.

(** Lines 84-91 on one token. *)
Definition trim_token (token : string) : string :=
  strip_trailing "/" (strip_trailing " " (skip_delims " " token)).

(** Lines 82-101: the loop over the tokens; [k] counts its iterations. *)
Fixpoint parse_tokens (w : Host) (tokens : list string) (k : nat)
    (blocked : list string) : list string :=
  match tokens with
  | [] => blocked
  | token :: rest =>
      if (List.length blocked <? MAX_BLOCKED_PATHS)%nat then
        let t := trim_token token in
        let blocked' :=
          if 0 <? strlen t then
            (if host_strdup_token w k then (blocked ++ [t])%list else blocked)
          else blocked in
        parse_tokens w rest (S k) blocked'
      else blocked
  end.

Definition init_blocked_paths (w : Host) (g : Globals) : Globals :=
  if initialized g then g
  else
    let debug :=
      match host_getenv w "SANDBOX_DEBUG" with
      | Some v => String.eqb v "1"
      | None => false
      end in
    let paths :=
      match host_getenv w "SANDBOX_BLOCKED_PATHS" with
      | Some p => p
      | None => DEFAULT_BLOCKED_PATHS
      end in
    if negb (host_strdup_paths w) then
      mkGlobals (blocked_paths g) debug (initialized g) true (init_once g)
    else
      mkGlobals (parse_tokens w (strtok_all ":" paths) 0 (blocked_paths g))
                debug true (init_failed g) (init_once g).

(** [pthread_once(&init_once, init_blocked_paths)] *)
Definition ensure_initialized (w : Host) (g : Globals) : Globals :=
  if init_once g then g
  else
    let g' := init_blocked_paths w g in
    mkGlobals (blocked_paths g') (debug_enabled g') (initialized g')
              (init_failed g') true.

(* ====================================================================== *)
(** ** The admission oracle *)
(* ====================================================================== *)

(** The test made inside each of the four prefix loops:
    [strncmp(resolved, blocked, blocked_len) == 0] and then
    [resolved[blocked_len] == '\0' || resolved[blocked_len] == '/']. *)
Definition prefix_blocks (blocked resolved : string) : bool :=
  strncmp_eq resolved blocked (String.length blocked)
  && match String.get (String.length blocked) resolved with
     | None => true                 (* the terminating NUL *)
     | Some ch => Ascii.eqb ch "/"
     end.

(** [for (i = 0; i < blocked_paths_count; i++) ... return 1;] *)
Definition matches_blocked (blocked : list string) (resolved : string) : bool :=
  existsb (fun b => prefix_blocks b resolved) blocked.

(** Lines 199-303. *)
Definition is_resolved_path_blocked (w : Host) (blocked : list string)
    (path : option string) : bool :=
  match path with
  | None => false
  | Some p =>
      match host_realpath w with
      | None => false
      | Some orig_realpath =>
          match orig_realpath p with
          | Some resolved => matches_blocked blocked resolved
          | None =>
              if strlen p >=? PATH_MAX then false
              else
                match strrchr p "/" with
                | None =>
                    match getcwd w PATH_MAX with
                    | Some cwd =>
                        match orig_realpath cwd with
                        | Some resolved => matches_blocked blocked resolved
                        | None => false
                        end
                    | None => false
                    end
                | Some (before, filename) =>
                    let parent :=
                      if String.eqb before "" then "/" else before in
                    match orig_realpath parent with
                    | Some resolved =>
                        let (n, full_resolved) :=
                          snprintf_path PATH_MAX resolved filename in
                        if n <? PATH_MAX
                        then matches_blocked blocked full_resolved
                        else false
                    | None => false
                    end
                end
          end
      end
  end.

(** Lines 330-335: the candidate that is compared, the canonical form or,
    when [normalize_path] fails, the raw path cut to the buffer. *)
Definition candidate (w : Host) (path : string) : string :=
  match normalize_path w (Some path) PATH_MAX with
  | Some normalized => normalized
  | None => strncpy path (Z.to_nat (PATH_MAX - 1))
  end.

(** Lines 318-358.  Returns the verdict and the globals after the call. *)
Definition is_path_blocked (w : Host) (path : option string) (g : Globals)
    : bool * Globals :=
  let g := ensure_initialized w g in
  if init_failed g then (true, g)
  else
    match path with
    | None => (false, g)
    | Some p =>
        if (blocked_paths_count g =? 0)%nat then (false, g)
        else
          let normalized := candidate w p in
          if matches_blocked (blocked_paths g) normalized then (true, g)
          else
            if is_resolved_path_blocked w (blocked_paths g) (Some normalized)
            then (true, g)
            else (false, g)
    end.

(** ["/proc/self/fd/%d"] *)
Definition proc_path (dirfd : Z) : string := "/proc/self/fd/" ++ fmt_d dirfd.

(** [orig_readlink(path, buf, bufsiz)]: at most [bufsiz] bytes are stored. *)
Definition call_readlink (orig_readlink : string -> option string)
    (path : string) (bufsiz : Z) : option string :=
  match orig_readlink path with
  | Some text => Some (strncpy text (Z.to_nat bufsiz))
  | None => None
  end.

(** Lines 370-416. *)
Definition is_path_blocked_at (w : Host) (dirfd : Z) (path : option string)
    (g : Globals) : bool * Globals :=
  match path with
  | None => (false, g)
  | Some p =>
      if Ascii.eqb (char_at p 0) "/" then is_path_blocked w (Some p) g
      else if dirfd =? AT_FDCWD then is_path_blocked w (Some p) g
      else
        match host_readlink w with
        | None => (true, g)
        | Some orig_readlink =>
            match call_readlink orig_readlink (proc_path dirfd) (PATH_MAX - 1) with
            | None => (true, g)
            | Some fd_path =>
                let (n, full_path) := snprintf_path PATH_MAX fd_path p in
                if n >=? PATH_MAX then (true, g)
                else is_path_blocked w (Some full_path) g
            end
        end
  end.

(** Lines 793-835.  [linkpath] is dereferenced by [strlen] once the target
    is known to be relative; the answer [None] is that NULL dereference. *)
Definition is_symlink_target_blocked (w : Host) (target : option string)
    (linkpath : option string) (g : Globals) : option (bool * Globals) :=
  match target with
  | None => Some (false, g)
  | Some t =>
      if Ascii.eqb (char_at t 0) "/" then Some (is_path_blocked w (Some t) g)
      else
        match linkpath with
        | None => None
        | Some lp =>
            if strlen lp >=? PATH_MAX then Some (true, g)
            else
              let linkdir :=
                match strrchr lp "/" with
                | None => getcwd w PATH_MAX
                | Some (before, _) =>
                    if String.eqb before "" then Some "/" else Some before
                end in
              match linkdir with
              | None => Some (true, g)
              | Some dir =>
                  let (n, full_target) := snprintf_path PATH_MAX dir t in
                  if n >=? PATH_MAX then Some (true, g)
                  else Some (is_path_blocked w (Some full_target) g)
              end
        end
  end.

(* ====================================================================== *)
(** ** The interposition dispatch layer *)
(* ====================================================================== *)

(** The interposed entry points, in the order of the source file. *)
Module Entry.
Inductive t :=
| open | open64 | openat | openat64 | creat | creat64
| fopen | fopen64 | freopen | freopen64
| stat | stat64 | lstat | lstat64 | fstatat | fstatat64
| __xstat | __xstat64 | __lxstat | __lxstat64 | __fxstatat | __fxstatat64
| statx
| access | faccessat | euidaccess | eaccess
| opendir | chdir | mkdir | mkdirat | rmdir
| unlink | unlinkat | rename | renameat | renameat2 | link | linkat
| symlink | symlinkat | readlink | readlinkat
| chmod | fchmodat | chown | lchown | fchownat | truncate | truncate64
| getxattr | lgetxattr | setxattr | lsetxattr | removexattr | lremovexattr
| listxattr | llistxattr
| realpath | canonicalize_file_name
| execve | execveat
| nftw | ftw
| utime | utimes | utimensat | futimesat
| mknod | mknodat | mkfifo | mkfifoat.
End Entry.

(** Return types of the C signatures. *)
Inductive ctype := TInt | TSsize | TPtr.

Inductive retval :=
| Rnum (n : Z)
| Rptr (p : option string).

(** The arguments of a call that the hooks look at.  For the two-path
    entry points [arg_path]/[arg_dirfd] are the first path and descriptor
    ([oldpath], [olddirfd], and [target] for the symlink calls) and
    [arg_path2]/[arg_dirfd2] the second ([newpath], [newdirfd], [linkpath]).
    Everything else (flags, modes, buffers) is only forwarded. *)
Record call := mkCall {
  arg_dirfd : Z;
  arg_path : option string;
  arg_dirfd2 : Z;
  arg_path2 : option string;
  arg_rest : list Z
}.

(** The guard in front of the forwarding code. *)
Inductive guard :=
| GPath        (* is_path_blocked(pathname) *)
| GPathAt      (* is_path_blocked_at(dirfd, pathname) *)
| GPathNonNull (* pathname && is_path_blocked(pathname) *)
| GEither      (* is_path_blocked(oldpath) || is_path_blocked(newpath) *)
| GEitherAt.   (* is_path_blocked_at(olddirfd, oldpath) || ..._at(newdirfd, newpath) *)

Inductive hook_body :=
| Guarded (k : guard) (on_block : retval)
| SymlinkBody       (* lines 838-847 *)
| SymlinkatBody     (* lines 850-908 *)
| ResultChecked.    (* lines 1060-1089 *)

Definition return_type (e : Entry.t) : ctype :=
  match e with
  | Entry.fopen | Entry.fopen64 | Entry.freopen | Entry.freopen64
  | Entry.opendir | Entry.realpath | Entry.canonicalize_file_name => TPtr
  | Entry.readlink | Entry.readlinkat | Entry.getxattr | Entry.lgetxattr
  | Entry.listxattr | Entry.llistxattr => TSsize
  | _ => TInt
  end.

Definition body (e : Entry.t) : hook_body :=
  match e with
  | Entry.open => Guarded GPath (Rnum (-1))
  | Entry.open64 => Guarded GPath (Rnum (-1))
  | Entry.openat => Guarded GPathAt (Rnum (-1))
  | Entry.openat64 => Guarded GPathAt (Rnum (-1))
  | Entry.creat => Guarded GPath (Rnum (-1))
  | Entry.creat64 => Guarded GPath (Rnum (-1))
  | Entry.fopen => Guarded GPath (Rptr None)
  | Entry.fopen64 => Guarded GPath (Rptr None)
  | Entry.freopen => Guarded GPathNonNull (Rptr None)
  | Entry.freopen64 => Guarded GPathNonNull (Rptr None)
  | Entry.stat => Guarded GPath (Rnum (-1))
  | Entry.stat64 => Guarded GPath (Rnum (-1))
  | Entry.lstat => Guarded GPath (Rnum (-1))
  | Entry.lstat64 => Guarded GPath (Rnum (-1))
  | Entry.fstatat => Guarded GPathAt (Rnum (-1))
  | Entry.fstatat64 => Guarded GPathAt (Rnum (-1))
  | Entry.__xstat => Guarded GPath (Rnum (-1))
  | Entry.__xstat64 => Guarded GPath (Rnum (-1))
  | Entry.__lxstat => Guarded GPath (Rnum (-1))
  | Entry.__lxstat64 => Guarded GPath (Rnum (-1))
  | Entry.__fxstatat => Guarded GPathAt (Rnum (-1))
  | Entry.__fxstatat64 => Guarded GPathAt (Rnum (-1))
  | Entry.statx => Guarded GPathAt (Rnum (-1))
  | Entry.access => Guarded GPath (Rnum (-1))
  | Entry.faccessat => Guarded GPathAt (Rnum (-1))
  | Entry.euidaccess => Guarded GPath (Rnum (-1))
  | Entry.eaccess => Guarded GPath (Rnum (-1))
  | Entry.opendir => Guarded GPath (Rptr None)
  | Entry.chdir => Guarded GPath (Rnum (-1))
  | Entry.mkdir => Guarded GPath (Rnum (-1))
  | Entry.mkdirat => Guarded GPathAt (Rnum (-1))
  | Entry.rmdir => Guarded GPath (Rnum (-1))
  | Entry.unlink => Guarded GPath (Rnum (-1))
  | Entry.unlinkat => Guarded GPathAt (Rnum (-1))
  | Entry.rename => Guarded GEither (Rnum (-1))
  | Entry.renameat => Guarded GEitherAt (Rnum (-1))
  | Entry.renameat2 => Guarded GEitherAt (Rnum (-1))
  | Entry.link => Guarded GEither (Rnum (-1))
  | Entry.linkat => Guarded GEitherAt (Rnum (-1))
  | Entry.symlink => SymlinkBody
  | Entry.symlinkat => SymlinkatBody
  | Entry.readlink => Guarded GPath (Rnum (-1))
  | Entry.readlinkat => Guarded GPathAt (Rnum (-1))
  | Entry.chmod => Guarded GPath (Rnum (-1))
  | Entry.fchmodat => Guarded GPathAt (Rnum (-1))
  | Entry.chown => Guarded GPath (Rnum (-1))
  | Entry.lchown => Guarded GPath (Rnum (-1))
  | Entry.fchownat => Guarded GPathAt (Rnum (-1))
  | Entry.truncate => Guarded GPath (Rnum (-1))
  | Entry.truncate64 => Guarded GPath (Rnum (-1))
  | Entry.getxattr => Guarded GPath (Rnum (-1))
  | Entry.lgetxattr => Guarded GPath (Rnum (-1))
  | Entry.setxattr => Guarded GPath (Rnum (-1))
  | Entry.lsetxattr => Guarded GPath (Rnum (-1))
  | Entry.removexattr => Guarded GPath (Rnum (-1))
  | Entry.lremovexattr => Guarded GPath (Rnum (-1))
  | Entry.listxattr => Guarded GPath (Rnum (-1))
  | Entry.llistxattr => Guarded GPath (Rnum (-1))
  | Entry.realpath => ResultChecked
  | Entry.canonicalize_file_name => ResultChecked
  | Entry.execve => Guarded GPath (Rnum (-1))
  | Entry.execveat => Guarded GPathAt (Rnum (-1))
  | Entry.nftw => Guarded GPath (Rnum (-1))
  | Entry.ftw => Guarded GPath (Rnum (-1))
  | Entry.utime => Guarded GPath (Rnum (-1))
  | Entry.utimes => Guarded GPath (Rnum (-1))
  | Entry.utimensat => Guarded GPathAt (Rnum (-1))
  | Entry.futimesat => Guarded GPathAt (Rnum (-1))
  | Entry.mknod => Guarded GPath (Rnum (-1))
  | Entry.mknodat => Guarded GPathAt (Rnum (-1))
  | Entry.mkfifo => Guarded GPath (Rnum (-1))
  | Entry.mkfifoat => Guarded GPathAt (Rnum (-1))
  end.

Definition eval_guard (w : Host) (k : guard) (c : call) (g : Globals)
    : bool * Globals :=
  match k with
  | GPath => is_path_blocked w (arg_path c) g
  | GPathAt => is_path_blocked_at w (arg_dirfd c) (arg_path c) g
  | GPathNonNull =>
      match arg_path c with
      | None => (false, g)
      | Some p => is_path_blocked w (Some p) g
      end
  | GEither =>
      let (b, g1) := is_path_blocked w (arg_path c) g in
      if b then (true, g1) else is_path_blocked w (arg_path2 c) g1
  | GEitherAt =>
      let (b, g1) := is_path_blocked_at w (arg_dirfd c) (arg_path c) g in
      if b then (true, g1)
      else is_path_blocked_at w (arg_dirfd2 c) (arg_path2 c) g1
  end.

(** The checks of [symlinkat] after the link path passed (lines 856-904). *)
Definition symlinkat_target_blocked (w : Host) (target : option string)
    (newdirfd : Z) (linkpath : option string) (g : Globals)
    : option (bool * Globals) :=
  match target with
  | None => Some (false, g)
  | Some t =>
      if Ascii.eqb (char_at t 0) "/" then Some (is_path_blocked w (Some t) g)
      else
        let linkpath_absolute :=
          match linkpath with
          | Some lp => Ascii.eqb (char_at lp 0) "/"
          | None => false
          end in
        if linkpath_absolute then
          match linkpath with
          | Some lp =>
              if strlen lp <? PATH_MAX
              then is_symlink_target_blocked w target (Some lp) g
              else Some (false, g)
          | None => Some (false, g)
          end
        else if newdirfd =? AT_FDCWD then
          match getcwd w PATH_MAX, linkpath with
          | Some cwd, Some lp =>
              let (n, full_linkpath) := snprintf_path PATH_MAX cwd lp in
              if n <? PATH_MAX
              then is_symlink_target_blocked w target (Some full_linkpath) g
              else Some (false, g)
          | _, _ => Some (false, g)
          end
        else
          match host_readlink w with
          | None => Some (true, g)
          | Some orig_readlink =>
              match call_readlink orig_readlink (proc_path newdirfd)
                      (PATH_MAX - 1) with
              | None => Some (true, g)
              | Some fd_path =>
                  if strlen fd_path <=? 0 then Some (true, g)
                  else
                    match linkpath with
                    | Some lp =>
                        let (n, full_linkpath) :=
                          snprintf_path PATH_MAX fd_path lp in
                        if n <? PATH_MAX
                        then is_symlink_target_blocked w target
                               (Some full_linkpath) g
                        else Some (false, g)
                    | None => Some (false, g)
                    end
              end
          end
  end.

Section Dispatch.

(** What lies behind the shim: the state of the filesystem and the original
    implementations, reached through [dlsym(RTLD_NEXT, name)].  An original
    takes the filesystem and [errno] and gives its result and both back.
    The lookups of the wrapped originals themselves are taken to succeed
    (the hooks call their result unchecked).

    [errno] is followed through what the hooks assign and what the wrapped
    original leaves; what the oracle's own library calls ([getcwd],
    [realpath], [readlink], [strdup]) may do to it in between is not
    modelled.  A NULL path is followed through the null tests the source
    makes, which a compiler may drop where the libc prototype declares the
    parameter nonnull. *)
Variable FS : Type.
Variable libc : Entry.t -> call -> FS -> Z -> retval * FS * Z.
Variable w : Host.

Record Sys := mkSys {
  sys_globals : Globals;
  sys_errno : Z;
  sys_fs : FS;
  (** the calls forwarded so far, each to the original of its own name (the
      oracle's own uses of the original [realpath] and [readlink] are not
      listed) *)
  sys_forwarded : list Entry.t
}.

Inductive outcome :=
| Returns (r : retval) (s : Sys)
| Faults.

(** [errno = EACCES; return ret_val;] *)
Definition BLOCK_AND_RETURN (ret_val : retval) (s : Sys) (g : Globals)
    : outcome :=
  Returns ret_val (mkSys g EACCES (sys_fs s) (sys_forwarded s)).

(** [orig = dlsym(RTLD_NEXT, name); return orig(...);] *)
Definition call_orig (e : Entry.t) (c : call) (s : Sys) (g : Globals)
    : retval * Sys :=
  let '(r, fs', errno') := libc e c (sys_fs s) (sys_errno s) in
  (r, mkSys g errno' fs' (sys_forwarded s ++ [e])).

Definition forward (e : Entry.t) (c : call) (s : Sys) (g : Globals)
    : outcome :=
  let (r, s') := call_orig e c s g in Returns r s'.

Definition hook (e : Entry.t) (c : call) (s : Sys) : outcome :=
  match body e with
  | Guarded k on_block =>
      let (b, g) := eval_guard w k c (sys_globals s) in
      if b then BLOCK_AND_RETURN on_block s g else forward e c s g
  | SymlinkBody =>
      let (b, g) := is_path_blocked w (arg_path2 c) (sys_globals s) in
      if b then BLOCK_AND_RETURN (Rnum (-1)) s g
      else
        match is_symlink_target_blocked w (arg_path c) (arg_path2 c) g with
        | None => Faults
        | Some (true, g') => BLOCK_AND_RETURN (Rnum (-1)) s g'
        | Some (false, g') => forward e c s g'
        end
  | SymlinkatBody =>
      let (b, g) :=
        is_path_blocked_at w (arg_dirfd2 c) (arg_path2 c) (sys_globals s) in
      if b then BLOCK_AND_RETURN (Rnum (-1)) s g
      else
        match symlinkat_target_blocked w (arg_path c) (arg_dirfd2 c)
                (arg_path2 c) g with
        | None => Faults
        | Some (true, g') => BLOCK_AND_RETURN (Rnum (-1)) s g'
        | Some (false, g') => forward e c s g'
        end
  | ResultChecked =>
      let (r, s') := call_orig e c s (sys_globals s) in
      match r with
      | Rptr (Some result) =>
          let (b, g) := is_path_blocked w (Some result) (sys_globals s') in
          if b then BLOCK_AND_RETURN (Rptr None) s' g
          else Returns r (mkSys g (sys_errno s') (sys_fs s') (sys_forwarded s'))
      | _ => Returns r s'
      end
  end.

End Dispatch.

Arguments mkSys {FS}.
Arguments sys_globals {FS}.
Arguments sys_errno {FS}.
Arguments sys_fs {FS}.
Arguments sys_forwarded {FS}.
Arguments Returns {FS}.
Arguments Faults {FS}.
Arguments hook {FS}.
Arguments BLOCK_AND_RETURN {FS}.

(* ====================================================================== *)
(** ** Vocabulary of the statements *)
(* ====================================================================== *)

(** A canonical component: not empty, without separator, neither [.] nor
    [..]. *)
Definition component_ok (c : string) : Prop :=
  c <> "" /\ no_char "/" c = true /\ c <> "." /\ c <> "..".

(** The text [/c1/c2/.../cn]. *)
Fixpoint join_components (components : list string) : string :=
  match components with
  | [] => ""
  | c :: cs => "/" ++ c ++ join_components cs
  end.

(** The match rule in words: [c] is [q] itself or [q], a separator and
    anything. *)
Definition under_prefix (q c : string) : Prop :=
  c = q \/ exists rest, c = q ++ "/" ++ rest.

Definition is_absolute (p : string) : Prop := exists rest, p = String "/" rest.

Definition ends_with (c : ascii) (s : string) : Prop :=
  exists front, s = front ++ String c "".

(** The text the loader parses: the environment value or the default. *)
Definition configured_paths (w : Host) : string :=
  match host_getenv w "SANDBOX_BLOCKED_PATHS" with
  | Some p => p
  | None => DEFAULT_BLOCKED_PATHS
  end.

(** The prefixes the loader keeps from a token list: the trimmed, non-empty
    tokens whose duplication succeeded, [k] being the index of the first. *)
Fixpoint kept_tokens (w : Host) (tokens : list string) (k : nat)
    : list string :=
  match tokens with
  | [] => []
  | token :: rest =>
      let t := trim_token token in
      if (0 <? strlen t) && host_strdup_token w k
      then t :: kept_tokens w rest (S k)
      else kept_tokens w rest (S k)
  end.

(** The documented failure value of a signature family. *)
Definition failure_value (t : ctype) : retval :=
  match t with
  | TInt | TSsize => Rnum (-1)
  | TPtr => Rptr None
  end.

(** The paths a call names, each with the descriptor it is relative to
    ([None] for the entry points that take none), read off the C
    signatures.  For the symlink calls it is the link path: the target is
    the text stored in the link. *)
Definition named_paths (e : Entry.t) (c : call)
    : list (option Z * option string) :=
  match e with
  | Entry.openat | Entry.openat64 | Entry.fstatat | Entry.fstatat64
  | Entry.__fxstatat | Entry.__fxstatat64 | Entry.statx | Entry.faccessat
  | Entry.mkdirat | Entry.unlinkat | Entry.readlinkat | Entry.fchmodat
  | Entry.fchownat | Entry.execveat | Entry.utimensat | Entry.futimesat
  | Entry.mknodat | Entry.mkfifoat =>
      [(Some (arg_dirfd c), arg_path c)]
  | Entry.rename | Entry.link =>
      [(None, arg_path c); (None, arg_path2 c)]
  | Entry.renameat | Entry.renameat2 | Entry.linkat =>
      [(Some (arg_dirfd c), arg_path c); (Some (arg_dirfd2 c), arg_path2 c)]
  | Entry.symlink => [(None, arg_path2 c)]
  | Entry.symlinkat => [(Some (arg_dirfd2 c), arg_path2 c)]
  | _ => [(None, arg_path c)]
  end.

Definition oracle_verdict (w : Host) (g : Globals)
    (dp : option Z * option string) : bool :=
  match dp with
  | (None, path) => fst (is_path_blocked w path g)
  | (Some dirfd, path) => fst (is_path_blocked_at w dirfd path g)
  end.

(** The admission oracle judges one of the call's paths blocked. *)
Definition judged_blocked (w : Host) (e : Entry.t) (c : call) (g : Globals)
    : bool :=
  existsb (oracle_verdict w g) (named_paths e c).

(** Every path the call names is a non-null pointer. *)
Definition paths_non_null (e : Entry.t) (c : call) : bool :=
  forallb (fun dp : option Z * option string =>
             match snd dp with Some _ => true | None => false end)
          (named_paths e c).

(** The two hooks that test the result of the original, not its argument. *)
Definition result_checked (e : Entry.t) : bool :=
  match e with
  | Entry.realpath | Entry.canonicalize_file_name => true
  | _ => false
  end.


(** A blocked call: the hook returns [v] with [errno = EACCES]; the
    filesystem and the list of originals invoked are as before, and the
    shim's own state changes at most by the one-shot initialization. *)
Definition blocked_outcome {FS : Type} (w : Host) (v : retval) (s : Sys FS)
    (o : outcome FS) : Prop :=
  exists g',
    o = Returns v (mkSys g' EACCES (sys_fs s) (sys_forwarded s))
    /\ (g' = sys_globals s \/ g' = ensure_initialized w (sys_globals s)).

(** [dir] is the directory that will contain the link named [linkpath]. *)
Definition link_directory (w : Host) (linkpath dir : string) : Prop :=
  (exists name, no_char "/" name = true
     /\ ((dir <> "" /\ linkpath = dir ++ "/" ++ name)
         \/ (dir = "/" /\ linkpath = "/" ++ name)))
  \/ (no_char "/" linkpath = true /\ host_cwd w = Some dir).

(** The text [symlinkat] takes for the full path of the link: the link
    path itself when it is absolute, else the working directory, or the
    directory the descriptor names, then [/] and the link path. *)
Definition full_link_path (w : Host) (newdirfd : Z) (linkpath full : string)
    : Prop :=
  if Ascii.eqb (char_at linkpath 0) "/" then full = linkpath
  else if newdirfd =? AT_FDCWD then
    exists cwd, getcwd w PATH_MAX = Some cwd /\ full = cwd ++ "/" ++ linkpath
  else
    exists orig_readlink text,
      host_readlink w = Some orig_readlink
      /\ orig_readlink (proc_path newdirfd) = Some text
      /\ full = strncpy text (Z.to_nat (PATH_MAX - 1)) ++ "/" ++ linkpath.

(** The link paths for which [symlinkat] has no full path to hand to the
    target check: an absolute one that does not fit in [PATH_MAX], or one
    relative to the working directory when that directory cannot be read or
    the two joined do not fit. *)
Definition link_path_unfit (w : Host) (newdirfd : Z) (linkpath : string)
    : Prop :=
  (Ascii.eqb (char_at linkpath 0) "/" = true /\ PATH_MAX <= strlen linkpath)
  \/ (Ascii.eqb (char_at linkpath 0) "/" = false /\ newdirfd = AT_FDCWD
      /\ (getcwd w PATH_MAX = None
          \/ exists cwd, getcwd w PATH_MAX = Some cwd
                /\ PATH_MAX <= strlen (cwd ++ "/" ++ linkpath) <= INT_MAX)).


(** *** Sample hosts and inputs *)

Definition env_paths (value : string) (name : string) : option string :=
  if String.eqb name "SANDBOX_BLOCKED_PATHS" then Some value else None.

Definition no_env (name : string) : option string := None.

Definition resolves_nothing (p : string) : option string := None.

(** Default configuration, no symbolic links anywhere. *)
Definition host_plain : Host :=
  mkHost no_env true (fun _ => true) true (Some "/home/user")
         (Some resolves_nothing) (Some resolves_nothing).

(** [SANDBOX_BLOCKED_PATHS=/app], no symbolic links. *)
Definition host_app : Host :=
  mkHost (env_paths "/app") true (fun _ => true) true (Some "/home/user")
         (Some resolves_nothing) (Some resolves_nothing).

(** [SANDBOX_BLOCKED_PATHS=/app] and [/applications] a link to [/app]. *)
Definition host_app_link : Host :=
  mkHost (env_paths "/app") true (fun _ => true) true (Some "/home/user")
         (Some (fun p => if String.eqb p "/applications/foo"
                         then Some "/app/foo" else None))
         (Some resolves_nothing).

(** Default configuration; the lookup of the original [realpath] fails. *)
Definition host_no_realpath : Host :=
  mkHost no_env true (fun _ => true) true (Some "/home/user")
         None (Some resolves_nothing).

(** Default configuration; the lookup of the original [readlink] fails. *)
Definition host_no_readlink : Host :=
  mkHost no_env true (fun _ => true) true (Some "/home/user")
         (Some resolves_nothing) None.



(** [SANDBOX_BLOCKED_PATHS=app:/:/x /] *)
Definition host_odd_config : Host :=
  mkHost (env_paths "app:/:/x /") true (fun _ => true) true
         (Some "/home/user") (Some resolves_nothing) (Some resolves_nothing).




(** [SANDBOX_BLOCKED_PATHS=/app]; [/workspace/link2] is a symbolic link
    that resolves to [/app], and nothing else exists. *)
Definition host_app_dirlink : Host :=
  mkHost (env_paths "/app") true (fun _ => true) true (Some "/home/user")
         (Some (fun p => if String.eqb p "/workspace/link2"
                         then Some "/app" else None))
         (Some resolves_nothing).

(** The default list already loaded, and the same with one more prefix. *)
Definition globals_default : Globals :=
  mkGlobals ["/app"; "/.apps_data"] false true false true.

Definition globals_more : Globals :=
  mkGlobals ["/app"; "/.apps_data"; "/srv"] false true false true.

(** A file name of [PATH_MAX] bytes. *)
Definition long_name : string :=
  string_of_list_ascii (repeat "a"%char (Z.to_nat PATH_MAX)).

(** A state in which loading failed. *)
Definition globals_failed : Globals := mkGlobals [] false false true true.

(** An original that finds nothing: NULL or [-1] with [errno = ENOENT]. *)
Definition libc_enoent (e : Entry.t) (c : call) (fs : unit) (errno : Z)
    : retval * unit * Z :=
  (failure_value (return_type e), fs, 2).

(** An original [realpath] that answers its argument. *)
Definition libc_echo (e : Entry.t) (c : call) (fs : unit) (errno : Z)
    : retval * unit * Z :=
  (Rptr (arg_path c), fs, errno).

Definition sys0 : Sys unit := mkSys globals0 0 tt [].

(* ====================================================================== *)
(** ** Strings *)
(* ====================================================================== *)

Section StringFacts.

Lemma append_assoc (a b c : string) : (a ++ b) ++ c = a ++ (b ++ c).
Proof. induction a as [|x a IH]; simpl; [reflexivity | now rewrite IH]. Qed.

Lemma append_nil_r (a : string) : a ++ "" = a.
Proof. induction a as [|x a IH]; simpl; [reflexivity | now rewrite IH]. Qed.

Lemma length_append (a b : string) :
  String.length (a ++ b) = (String.length a + String.length b)%nat.
Proof. induction a as [|x a IH]; simpl; [reflexivity | now rewrite IH]. Qed.

Lemma strlen_append (a b : string) : strlen (a ++ b) = strlen a + strlen b.
Proof. unfold strlen. rewrite length_append. lia. Qed.

Lemma strlen_nonneg (a : string) : 0 <= strlen a.
Proof. unfold strlen. lia. Qed.

Lemma strlen_String (x : ascii) (a : string) : strlen (String x a) = 1 + strlen a.
Proof. unfold strlen. simpl String.length. lia. Qed.

Lemma strlen_pos (a : string) : a <> "" <-> 0 < strlen a.
Proof.
  destruct a as [|x a].
  - split; [congruence | unfold strlen; simpl; lia].
  - split; [intros _; rewrite strlen_String; pose proof (strlen_nonneg a); lia
           | discriminate].
Qed.

Lemma append_eq_nil (a b : string) : a ++ b = "" -> a = "" /\ b = "".
Proof. destruct a; simpl; [auto | discriminate]. Qed.

Lemma no_char_append (d : ascii) (a b : string) :
  no_char d (a ++ b) = no_char d a && no_char d b.
Proof.
  induction a as [|x a IH]; simpl; [reflexivity|].
  rewrite IH. now rewrite andb_assoc.
Qed.

Lemma strncpy_length (s : string) (n : nat) :
  (String.length (strncpy s n) <= n)%nat.
Proof.
  revert s. induction n as [|n IH]; intros [|a s]; simpl; try lia.
  specialize (IH s). lia.
Qed.

Lemma strncpy_short (s : string) (n : nat) :
  (String.length s <= n)%nat -> strncpy s n = s.
Proof.
  revert s. induction n as [|n IH]; intros [|a s] H; simpl in *;
    try reflexivity; try lia.
  rewrite IH by lia. reflexivity.
Qed.

(** [snprintf] of a text that fits the buffer returns its length and leaves
    the whole text. *)
Lemma snprintf_path_fits (a b : string) :
  strlen (a ++ "/" ++ b) < PATH_MAX ->
  snprintf_path PATH_MAX a b = (strlen (a ++ "/" ++ b), a ++ "/" ++ b).
Proof.
  intros H. unfold snprintf_path, join_slash.
  assert (E : (strlen (a ++ "/" ++ b) <=? INT_MAX) = true)
    by (apply Z.leb_le; unfold PATH_MAX, INT_MAX in *; lia).
  rewrite E. f_equal. apply strncpy_short.
  unfold strlen, PATH_MAX in *. lia.
Qed.

(** A text too long for the buffer whose length is an [int]: the length. *)
Lemma snprintf_path_long (size : Z) (a b : string) :
  strlen (a ++ "/" ++ b) <= INT_MAX ->
  fst (snprintf_path size a b) = strlen (a ++ "/" ++ b).
Proof.
  intros H. unfold snprintf_path, join_slash. cbn [fst].
  apply Z.leb_le in H. rewrite H. reflexivity.
Qed.


End StringFacts.

(* ====================================================================== *)
(** ** [strtok_r] loops *)
(* ====================================================================== *)

Section Tokens.

Variable d : ascii.

Lemma tokens_from_ok (s cur : string) :
  no_char d cur = true ->
  Forall (fun t => t <> "" /\ no_char d t = true) (tokens_from d s cur).
Proof.
  revert cur. induction s as [|a s IH]; intros cur Hcur; simpl.
  - destruct (String.eqb_spec cur ""); constructor; auto.
  - destruct (Ascii.eqb a d) eqn:Ead.
    + destruct (String.eqb_spec cur "").
      * apply IH. reflexivity.
      * constructor; [auto | apply IH; reflexivity].
    + apply IH. rewrite no_char_append, Hcur. simpl. now rewrite Ead.
Qed.

Lemma strtok_all_ok (s : string) :
  Forall (fun t => t <> "" /\ no_char d t = true) (strtok_all d s).
Proof. apply tokens_from_ok. reflexivity. Qed.

(** Scanning over bytes that are not delimiters only grows the token. *)
Lemma tokens_from_run (t rest cur : string) :
  no_char d t = true ->
  tokens_from d (t ++ rest) cur = tokens_from d rest (cur ++ t).
Proof.
  revert cur. induction t as [|a t IH]; intros cur Ht; simpl in *.
  - now rewrite append_nil_r.
  - apply andb_true_iff in Ht as [Ha Ht].
    apply negb_true_iff in Ha. rewrite Ha, IH by assumption.
    now rewrite append_assoc.
Qed.

(** The loop agrees with repeated calls of [strtok_r]. *)
Lemma tokens_from_skip (s : string) :
  tokens_from d (skip_delims d s) "" = tokens_from d s "".
Proof.
  induction s as [|a s IH]; simpl; [reflexivity|].
  destruct (Ascii.eqb a d) eqn:Ead; simpl; [exact IH | now rewrite Ead].
Qed.

Lemma tokens_from_cut (s cur : string) :
  cur ++ fst (cut_token d s) <> "" ->
  tokens_from d s cur =
  (cur ++ fst (cut_token d s)) :: tokens_from d (snd (cut_token d s)) "".
Proof.
  revert cur. induction s as [|a s IH]; intros cur Hne; simpl in *.
  - rewrite append_nil_r in *.
    destruct (String.eqb_spec cur ""); congruence.
  - destruct (Ascii.eqb a d) eqn:Ead; simpl in *.
    + rewrite append_nil_r in *.
      destruct (String.eqb_spec cur ""); congruence.
    + destruct (cut_token d s) as [t rest] eqn:Ect. simpl in *.
      rewrite IH; rewrite append_assoc; simpl; auto.
Qed.

Lemma strtok_all_unfold (s : string) :
  strtok_all d s =
  match strtok_r d s with
  | None => []
  | Some (token, saveptr) => token :: strtok_all d saveptr
  end.
Proof.
  unfold strtok_all, strtok_r. rewrite <- (tokens_from_skip s).
  destruct (skip_delims d s) as [|a s'] eqn:Es; [reflexivity|].
  assert (Ha : Ascii.eqb a d = false).
  { clear -Es. induction s as [|b s IH]; simpl in Es; [discriminate|].
    destruct (Ascii.eqb b d) eqn:E; [auto | congruence]. }
  destruct (cut_token d (String a s')) as [t rest] eqn:Ect.
  rewrite tokens_from_cut; rewrite Ect; simpl; [reflexivity|].
  simpl in Ect. rewrite Ha in Ect. destruct (cut_token d s'). congruence.
Qed.

End Tokens.

(* ====================================================================== *)
(** ** The canonicalizer *)
(* ====================================================================== *)

(** Boolean comparisons of the model, turned into facts for [lia]. *)
Ltac zcmp H :=
  rewrite ?Z.geb_leb in H;
  first [ apply Z.leb_le in H | apply Z.leb_gt in H
        | apply Z.ltb_lt in H | apply Z.ltb_ge in H
        | apply Z.eqb_eq in H | apply Z.eqb_neq in H ].

Section Canonicalizer.

Lemma join_components_nil (cs : list string) :
  join_components cs = "" <-> cs = [].
Proof. destruct cs; simpl; split; congruence. Qed.

Lemma join_components_app (cs1 cs2 : list string) :
  join_components (cs1 ++ cs2) = join_components cs1 ++ join_components cs2.
Proof.
  induction cs1 as [|c cs1 IH]; simpl; [reflexivity|].
  now rewrite IH, append_assoc.
Qed.

Lemma tokens_of_join_cons (c : string) (cs : list string) :
  c <> "" ->
  tokens_from "/" (join_components cs) c =
  c :: tokens_from "/" (join_components cs) "".
Proof.
  intros Hc. destruct cs as [|c' cs]; simpl.
  - destruct (String.eqb_spec c ""); congruence.
  - destruct (String.eqb_spec c ""); congruence.
Qed.

(** Splitting a canonical text gives back its components. *)
Lemma strtok_all_join (cs : list string) :
  Forall component_ok cs -> strtok_all "/" (join_components cs) = cs.
Proof.
  unfold strtok_all. induction 1 as [|c cs [Hne [Hns _]] _ IH]; simpl.
  - reflexivity.
  - rewrite tokens_from_run by assumption. simpl.
    rewrite tokens_of_join_cons by assumption. now rewrite IH.
Qed.

Lemma Forall_removelast {A} (P : A -> Prop) (l : list A) :
  Forall P l -> Forall P (removelast l).
Proof.
  induction 1 as [|x l Hx Hl IH]; simpl; [constructor|].
  destruct l; [constructor | constructor; assumption].
Qed.

(** The stack only ever holds canonical components. *)
Lemma walk_components_ok (tokens components : list string) :
  Forall (fun t => t <> "" /\ no_char "/" t = true) tokens ->
  Forall component_ok components ->
  Forall component_ok (walk_components tokens components).
Proof.
  intros Ht. revert components.
  induction Ht as [|t tokens [Hne Hns] _ IH]; intros components Hc; simpl.
  - assumption.
  - destruct (String.eqb_spec t "."); [now apply IH|].
    destruct (String.eqb_spec t ".."); [now apply IH, Forall_removelast|].
    destruct (0 <? strlen t); apply IH; [|assumption].
    apply Forall_app. split; [assumption|].
    constructor; [|constructor]. unfold component_ok. auto.
Qed.

(** Canonical components are pushed one after the other. *)
Lemma walk_components_canonical (cs components : list string) :
  Forall component_ok cs ->
  walk_components cs components = (components ++ cs)%list.
Proof.
  intros H. revert components.
  induction H as [|c cs [Hne [_ [Hd Hdd]]] _ IH]; intros components; simpl.
  - now rewrite app_nil_r.
  - destruct (String.eqb_spec c "."); [contradiction|].
    destruct (String.eqb_spec c ".."); [contradiction|].
    apply strlen_pos in Hne. apply Z.ltb_lt in Hne. rewrite Hne.
    rewrite IH, <- app_assoc. reflexivity.
Qed.

Lemma rebuild_text (cs : list string) (resolved : string) (size : Z)
    (r : string) :
  rebuild cs resolved size = Some r -> r = resolved ++ join_components cs.
Proof.
  revert resolved. induction cs as [|c cs IH]; intros resolved; simpl.
  - intros [= <-]. now rewrite append_nil_r.
  - destruct (_ >=? _); [discriminate|]. intros H%IH.
    rewrite H, append_assoc. reflexivity.
Qed.

Lemma rebuild_fits (cs : list string) (resolved : string) (size : Z)
    (r : string) :
  rebuild cs resolved size = Some r -> cs <> [] -> strlen r < size.
Proof.
  revert resolved. induction cs as [|c cs IH]; intros resolved; simpl.
  - congruence.
  - destruct (_ >=? _) eqn:E; [discriminate|]. intros H _.
    zcmp E.
    destruct cs as [|c' cs'].
    + simpl in H. injection H as <-.
      rewrite strlen_append, strlen_String. lia.
    + apply (IH _ H). discriminate.
Qed.

(** The array [components[PATH_MAX / 2]] is never overrun: a text shorter
    than [PATH_MAX] has at most [PATH_MAX / 2] tokens, and the stack never
    holds more components than tokens were read. *)
Lemma tokens_from_count (d : ascii) (s cur : string) :
  (2 * List.length (tokens_from d s cur) <=
   String.length s + 1 + (if String.eqb cur "" then 0 else 1))%nat.
Proof.
  revert cur. induction s as [|a s IH]; intros cur; simpl.
  - destruct (String.eqb cur ""); simpl; lia.
  - destruct (Ascii.eqb a d).
    + specialize (IH ""). simpl in IH.
      destruct (String.eqb cur ""); simpl; lia.
    + specialize (IH (cur ++ String a "")).
      destruct (String.eqb_spec (cur ++ String a "") "") as [E|_].
      * apply append_eq_nil in E as [_ E]. discriminate.
      * destruct (String.eqb cur ""); lia.
Qed.

Lemma walk_components_count (tokens components : list string) :
  (List.length (walk_components tokens components) <=
   List.length tokens + List.length components)%nat.
Proof.
  revert components.
  induction tokens as [|t tokens IH]; intros components; simpl; [lia|].
  destruct (String.eqb t "."); [specialize (IH components); lia|].
  destruct (String.eqb t "..").
  - specialize (IH (removelast components)).
    assert (List.length (removelast components) <= List.length components)%nat.
    { clear. induction components as [|x l IHl]; simpl; [lia|].
      destruct l; simpl in *; lia. }
    lia.
  - destruct (0 <? strlen t).
    + specialize (IH (components ++ [t])%list).
      rewrite length_app in IH. simpl in IH. lia.
    + specialize (IH components). lia.
Qed.

Lemma components_fit (w : Host) (p absolute : string)
    (read rest : list string) :
  make_absolute w p = Some absolute ->
  strtok_all "/" absolute = (read ++ rest)%list ->
  Z.of_nat (List.length (walk_components read [])) <= PATH_MAX / 2.
Proof.
  intros Habs Htok.
  assert (Hlen : strlen absolute < PATH_MAX).
  { unfold make_absolute in Habs.
    destruct (negb _).
    - destruct (getcwd w PATH_MAX) as [cwd|]; [|discriminate].
      destruct (_ >=? _) eqn:E; [discriminate|]. injection Habs as <-.
      zcmp E. rewrite strlen_append, strlen_String. lia.
    - destruct (_ >=? _) eqn:E; [discriminate|]. injection Habs as <-.
      zcmp E. lia. }
  pose proof (walk_components_count read []) as H1.
  pose proof (tokens_from_count "/" absolute "") as H2.
  fold (strtok_all "/" absolute) in H2. rewrite Htok, length_app in H2.
  simpl in H1, H2. unfold strlen in Hlen.
  change (PATH_MAX / 2) with 2048. change PATH_MAX with 4096 in Hlen. lia.
Qed.

(** What [normalize_path] answers, when it answers. *)
Lemma normalize_path_shape (w : Host) (p : string) (size : Z) (r : string) :
  normalize_path w (Some p) size = Some r ->
  exists cs,
    Forall component_ok cs
    /\ rebuild cs "" size = Some (join_components cs)
    /\ r = (if String.eqb (join_components cs) "" then "/"
            else join_components cs)
    /\ host_strdup_work w = true /\ size <> 0.
Proof.
  unfold normalize_path.
  destruct (size =? 0) eqn:Esz; [discriminate|].
  destruct (make_absolute w p) as [absolute|]; [|discriminate].
  destruct (host_strdup_work w); simpl; [|discriminate].
  set (cs := walk_components (strtok_all "/" absolute) []).
  destruct (rebuild cs "" size) as [resolved|] eqn:Er; [|discriminate].
  intros [= <-]. exists cs.
  pose proof (rebuild_text _ _ _ _ Er) as Ht. simpl in Ht. subst resolved.
  repeat split; auto.
  - apply walk_components_ok; [apply strtok_all_ok | constructor].
  - apply Z.eqb_neq. assumption.
Qed.

(** A canonical text that fits is a fixed point, whatever the host's
    working directory. *)
Lemma normalize_path_fixed (w : Host) (cs : list string) (size : Z) :
  Forall component_ok cs ->
  rebuild cs "" size = Some (join_components cs) ->
  size <> 0 -> size <= PATH_MAX ->
  host_strdup_work w = true ->
  let r := if String.eqb (join_components cs) "" then "/"
           else join_components cs in
  normalize_path w (Some r) size = Some r.
Proof.
  intros Hcs Hr Hsz Hle Hdup r.
  assert (Habs : make_absolute w r = Some r /\ strtok_all "/" r = cs).
  { subst r. destruct cs as [|c cs'] eqn:Ecs.
    - simpl. split; reflexivity.
    - rewrite <- Ecs in *.
      assert (Hne : join_components cs <> "") by (subst cs; discriminate).
      destruct (String.eqb_spec (join_components cs) ""); [contradiction|].
      split; [|now apply strtok_all_join].
      assert (Hfit : strlen (join_components cs) < size).
      { apply (rebuild_fits _ _ _ _ Hr). subst cs. discriminate. }
      unfold make_absolute. subst cs. simpl join_components in *. simpl.
      destruct (_ >=? _) eqn:E; [|reflexivity].
      zcmp E. lia. }
  destruct Habs as [Habs Htok].
  unfold normalize_path. apply Z.eqb_neq in Hsz. rewrite Hsz, Habs, Hdup.
  simpl. rewrite Htok, walk_components_canonical by assumption. simpl.
  now rewrite Hr.
Qed.

End Canonicalizer.

(* ====================================================================== *)
(** ** The match rule *)
(* ====================================================================== *)

Section MatchRule.

Lemma strncmp_eq_prefix (q c : string) :
  strncmp_eq c q (String.length q) = true <-> exists r, c = q ++ r.
Proof.
  revert c. induction q as [|x q IH]; intros c; simpl.
  - split; [intros _; now exists c | intros _; reflexivity].
  - destruct c as [|y c].
    + split; [discriminate | intros [r Hr]; discriminate].
    + rewrite andb_true_iff, Ascii.eqb_eq, IH. split.
      * intros [-> [r ->]]. now exists r.
      * intros [r [= -> ->]]. split; [reflexivity | now exists r].
Qed.

Lemma get_after_prefix (q r : string) :
  String.get (String.length q) (q ++ r) = String.get 0 r.
Proof. induction q as [|x q IH]; simpl; [reflexivity | exact IH]. Qed.

Lemma append_cancel_l (q a b : string) : q ++ a = q ++ b -> a = b.
Proof. induction q; simpl; [auto | intros [= H]; auto]. Qed.

(** Lines 342-344 decide exactly the rule of the data model. *)
Lemma prefix_blocks_rule (q c : string) :
  prefix_blocks q c = true <-> under_prefix q c.
Proof.
  unfold prefix_blocks, under_prefix.
  rewrite andb_true_iff, strncmp_eq_prefix. split.
  - intros [[r ->] H]. rewrite get_after_prefix in H.
    destruct r as [|y r]; simpl in H.
    + left. apply append_nil_r.
    + apply Ascii.eqb_eq in H. subst y. right. now exists r.
  - intros [-> | [rest ->]].
    + split; [exists ""; now rewrite append_nil_r|].
      rewrite <- (append_nil_r q) at 2. now rewrite get_after_prefix.
    + split; [now exists ("/" ++ rest)|].
      rewrite get_after_prefix. reflexivity.
Qed.

Lemma matches_blocked_rule (blocked : list string) (c : string) :
  matches_blocked blocked c = true <->
  exists q, In q blocked /\ under_prefix q c.
Proof.
  unfold matches_blocked. rewrite existsb_exists.
  split; intros [q [Hin H]]; exists q; split; auto;
    now apply prefix_blocks_rule.
Qed.

End MatchRule.

(* ====================================================================== *)
(** ** One-shot initialization *)
(* ====================================================================== *)

Section Initialization.

Variable w : Host.

Lemma ensure_initialized_once (g : Globals) :
  init_once (ensure_initialized w g) = true.
Proof.
  unfold ensure_initialized. destruct (init_once g) eqn:E; [exact E|reflexivity].
Qed.

Lemma ensure_initialized_idem (g : Globals) :
  ensure_initialized w (ensure_initialized w g) = ensure_initialized w g.
Proof.
  unfold ensure_initialized at 1. now rewrite ensure_initialized_once.
Qed.

Lemma ensure_initialized_done (g : Globals) :
  init_once g = true -> ensure_initialized w g = g.
Proof. unfold ensure_initialized. now intros ->. Qed.

(** The loader never clears the fail-closed flag. *)
Lemma init_failed_latched (g : Globals) :
  init_failed g = true -> init_failed (ensure_initialized w g) = true.
Proof.
  intros H. unfold ensure_initialized, init_blocked_paths.
  destruct (init_once g); [exact H|].
  destruct (initialized g); simpl; [exact H|].
  destruct (host_strdup_paths w); simpl; [exact H | reflexivity].
Qed.

Lemma is_path_blocked_globals (path : option string) (g : Globals) :
  snd (is_path_blocked w path g) = ensure_initialized w g.
Proof.
  unfold is_path_blocked.
  destruct (init_failed _); [reflexivity|].
  destruct path; [|reflexivity].
  destruct (_ =? _)%nat; [reflexivity|].
  destruct (matches_blocked _ _); [reflexivity|].
  destruct (is_resolved_path_blocked _ _ _); reflexivity.
Qed.

(** The verdict only reads the initialized state. *)
Lemma is_path_blocked_initialized (path : option string) (g : Globals) :
  is_path_blocked w path (ensure_initialized w g) = is_path_blocked w path g.
Proof. unfold is_path_blocked. now rewrite ensure_initialized_idem. Qed.

(** The verdict, written as one boolean. *)
Lemma is_path_blocked_verdict (path : option string) (g : Globals) :
  let g' := ensure_initialized w g in
  fst (is_path_blocked w path g) =
  init_failed g'
  || match path with
     | None => false
     | Some p =>
         negb (blocked_paths_count g' =? 0)%nat
         && (matches_blocked (blocked_paths g') (candidate w p)
             || is_resolved_path_blocked w (blocked_paths g')
                  (Some (candidate w p)))
     end.
Proof.
  unfold is_path_blocked. cbv zeta.
  destruct (init_failed _); [reflexivity|].
  destruct path as [p|]; [|reflexivity].
  destruct (_ =? _)%nat; [reflexivity|].
  destruct (matches_blocked _ _); [reflexivity|].
  destruct (is_resolved_path_blocked _ _ _); reflexivity.
Qed.

Lemma is_path_blocked_fail_closed (path : option string) (g : Globals) :
  init_failed g = true -> fst (is_path_blocked w path g) = true.
Proof.
  intros H. rewrite is_path_blocked_verdict. cbv zeta.
  now rewrite (init_failed_latched _ H).
Qed.

Lemma is_path_blocked_at_globals (dirfd : Z) (path : option string)
    (g : Globals) :
  snd (is_path_blocked_at w dirfd path g) = g
  \/ snd (is_path_blocked_at w dirfd path g) = ensure_initialized w g.
Proof.
  unfold is_path_blocked_at.
  destruct path as [p|]; [|now left].
  destruct (Ascii.eqb _ _); [right; apply is_path_blocked_globals|].
  destruct (_ =? _); [right; apply is_path_blocked_globals|].
  destruct (host_readlink w) as [rl|]; [|now left].
  destruct (call_readlink _ _ _); [|now left].
  destruct (snprintf_path _ _ _) as [n full_path].
  destruct (_ >=? _); [now left | right; apply is_path_blocked_globals].
Qed.

Lemma is_path_blocked_at_fail_closed (dirfd : Z) (p : string) (g : Globals) :
  init_failed g = true -> fst (is_path_blocked_at w dirfd (Some p) g) = true.
Proof.
  intros H. unfold is_path_blocked_at.
  destruct (Ascii.eqb _ _); [now apply is_path_blocked_fail_closed|].
  destruct (_ =? _); [now apply is_path_blocked_fail_closed|].
  destruct (host_readlink w) as [rl|]; [|reflexivity].
  destruct (call_readlink _ _ _); [|reflexivity].
  destruct (snprintf_path _ _ _) as [n full_path].
  destruct (_ >=? _); [reflexivity | now apply is_path_blocked_fail_closed].
Qed.

End Initialization.

(* ====================================================================== *)
(** ** The configuration loader *)
(* ====================================================================== *)

Section Loader.

Lemma cut_trailing_end (c : ascii) (s : string) :
  ~ ends_with c (cut_trailing c s).
Proof.
  induction s as [|a s IH]; simpl; intros [front H].
  - destruct front; discriminate.
  - destruct (String.eqb_spec (cut_trailing c s) "") as [Er|Er];
      destruct (Ascii.eqb_spec a c) as [Ea|Ea]; simpl in H;
      try (destruct front; discriminate);
      destruct front as [|y front]; simpl in H; injection H as -> H;
      try congruence; apply IH; now exists front.
Qed.

Lemma strip_trailing_end (c : ascii) (s : string) :
  ends_with c (strip_trailing c s) -> strip_trailing c s = String c "".
Proof.
  destruct s as [|a s]; simpl; intros [front H].
  - destruct front; discriminate.
  - destruct front as [|y front]; simpl in H; injection H as -> H.
    + now rewrite H.
    + exfalso. apply (cut_trailing_end c s). now exists front.
Qed.

Lemma strip_trailing_first (c : ascii) (s : string) :
  is_absolute (strip_trailing c s) <-> is_absolute s.
Proof.
  destruct s as [|a s]; simpl; [reflexivity|].
  split; intros [rest [= ->]]; eexists; reflexivity.
Qed.

(** A stored prefix keeps a trailing separator only when it is [/]. *)
Lemma trim_token_end (token : string) :
  ends_with "/" (trim_token token) -> trim_token token = "/".
Proof. apply strip_trailing_end. Qed.

Lemma trim_token_absolute (token : string) :
  is_absolute (trim_token token) <-> is_absolute (skip_delims " " token).
Proof. unfold trim_token. now rewrite !strip_trailing_first. Qed.

Variable w : Host.

(** The loop stores the kept tokens until the table is full. *)
Lemma parse_tokens_kept (tokens : list string) (k : nat)
    (blocked : list string) :
  (List.length blocked <= MAX_BLOCKED_PATHS)%nat ->
  parse_tokens w tokens k blocked =
  (blocked ++ firstn (MAX_BLOCKED_PATHS - List.length blocked)
                     (kept_tokens w tokens k))%list.
Proof.
  revert k blocked. induction tokens as [|token rest IH]; intros k blocked Hle.
  - simpl. now rewrite firstn_nil, app_nil_r.
  - simpl parse_tokens. simpl kept_tokens.
    destruct (Nat.ltb_spec (List.length blocked) MAX_BLOCKED_PATHS) as [Hlt|Hge].
    + destruct (0 <? strlen (trim_token token)); simpl andb;
        [destruct (host_strdup_token w k)|]; try (now apply IH).
      rewrite IH by (rewrite length_app; simpl; lia).
      rewrite length_app. simpl List.length.
      destruct (MAX_BLOCKED_PATHS - List.length blocked)%nat as [|m] eqn:Em;
        [lia|].
      replace (MAX_BLOCKED_PATHS - (List.length blocked + 1))%nat with m
        by lia.
      simpl. now rewrite <- app_assoc.
    + replace (MAX_BLOCKED_PATHS - List.length blocked)%nat with 0%nat by lia.
      simpl. now rewrite app_nil_r.
Qed.


Lemma kept_tokens_ok (tokens : list string) (k : nat) :
  Forall (fun p => p <> "" /\ (ends_with "/" p -> p = "/")
                   /\ exists token, In token tokens /\ p = trim_token token)
         (kept_tokens w tokens k).
Proof.
  revert k. induction tokens as [|token rest IH]; intros k; simpl.
  - constructor.
  - assert (Hrest : Forall (fun p => p <> "" /\ (ends_with "/" p -> p = "/")
        /\ exists t, (token = t \/ In t rest) /\ p = trim_token t)
        (kept_tokens w rest (S k))).
    { eapply Forall_impl; [|apply IH]. simpl.
      intros p [H1 [H2 [t [Hin Ht]]]]. repeat split; auto. exists t. auto. }
    destruct (0 <? strlen (trim_token token)) eqn:Hlen; simpl; [|exact Hrest].
    destruct (host_strdup_token w k); [|exact Hrest].
    constructor; [|exact Hrest]. zcmp Hlen. repeat split.
    + now apply strlen_pos.
    + apply trim_token_end.
    + exists token. auto.
Qed.


(** The state the loader leaves, from the static initial state. *)
Lemma loader_state :
  ensure_initialized w globals0 =
  if host_strdup_paths w then
    mkGlobals
      (firstn MAX_BLOCKED_PATHS
         (kept_tokens w (strtok_all ":" (configured_paths w)) 0))
      (match host_getenv w "SANDBOX_DEBUG" with
       | Some v => String.eqb v "1"
       | None => false
       end) true false true
  else
    mkGlobals []
      (match host_getenv w "SANDBOX_DEBUG" with
       | Some v => String.eqb v "1"
       | None => false
       end) false true true.
Proof.
  unfold ensure_initialized, init_blocked_paths, globals0. simpl.
  destruct (host_strdup_paths w); simpl; [|reflexivity].
  rewrite parse_tokens_kept by (simpl; lia). reflexivity.
Qed.

End Loader.

(* ====================================================================== *)
(** ** Canonicalization is idempotent *)
(* ====================================================================== *)

(** C8.  Textual canonicalization is idempotent: when [normalize_path]
    succeeds on a path, running it again on the canonical result returns
    that result unchanged. *)
Theorem normalize_path_idempotent (w : Host) (p r : string) :
  normalize_path w (Some p) PATH_MAX = Some r ->
  normalize_path w (Some r) PATH_MAX = Some r.
Proof.
  intros H.
  destruct (normalize_path_shape _ _ _ _ H) as [cs [Hcs [Hr [-> [Hdup Hsz]]]]].
  apply normalize_path_fixed; auto. reflexivity.
Qed.

Lemma normalize_path_idempotent_witness :
  normalize_path host_plain (Some "docs/../../tmp/./x") PATH_MAX
    = Some "/home/tmp/x"
  /\ normalize_path host_plain (Some "/home/tmp/x") PATH_MAX
    = Some "/home/tmp/x".
Proof.
  split; [reflexivity|].
  apply (normalize_path_idempotent host_plain "docs/../../tmp/./x").
  reflexivity.
Defined.

(* ====================================================================== *)
(** ** The short-circuits of the oracle *)
(* ====================================================================== *)




(** C2.  With the fail-closed flag set, [is_path_blocked] answers blocked
    for every path, the null path included, and [is_path_blocked_at]
    answers blocked for every descriptor and every non-null path; but for
    the null path [is_path_blocked_at] returns before it looks at the flag
    and answers allowed. *)
Theorem fail_closed_misses_null_path_at (w : Host) (dirfd : Z) (g : Globals) :
  init_failed g = true ->
  (forall path, fst (is_path_blocked w path g) = true)
  /\ (forall p, fst (is_path_blocked_at w dirfd (Some p) g) = true)
  /\ fst (is_path_blocked_at w dirfd None g) = false.
Proof.
  intros H. repeat split.
  - intros path. now apply is_path_blocked_fail_closed.
  - intros p. now apply is_path_blocked_at_fail_closed.
Qed.

Lemma fail_closed_misses_null_path_at_witness :
  init_failed globals_failed = true
  /\ fst (is_path_blocked host_plain None globals_failed) = true
  /\ fst (is_path_blocked_at host_plain 3 None globals_failed) = false.
Proof.
  destruct (fail_closed_misses_null_path_at host_plain 3 globals_failed
              eq_refl) as [H1 [_ H3]].
  split; [reflexivity|]. split; [apply H1 | exact H3].
Defined.

(* ====================================================================== *)
(** ** Failed lookups of the original helpers *)
(* ====================================================================== *)

(** C3 as stated fails: with the lookup of the original [realpath] failing,
    a query outside every prefix is allowed. *)
Lemma realpath_lookup_failure_allows :
  host_realpath host_no_realpath = None
  /\ fst (is_path_blocked host_no_realpath (Some "/tmp/ok") globals0) = false.
Proof. split; reflexivity. Qed.

(** C3, amended.  When the lookup of the original [readlink] fails, every
    descriptor-relative query that needs the descriptor resolved (relative
    non-null path, descriptor other than [AT_FDCWD]) is blocked.  When the
    lookup of the original [realpath] fails, the symlink-aware resolver
    reports nothing and the query is decided by the fail-closed flag and
    the textual match alone. *)
Theorem helper_lookup_failure (w : Host) (g : Globals) :
  (host_readlink w = None ->
   forall dirfd p,
     Ascii.eqb (char_at p 0) "/" = false -> dirfd <> AT_FDCWD ->
     is_path_blocked_at w dirfd (Some p) g = (true, g))
  /\ (host_realpath w = None ->
      (forall blocked path, is_resolved_path_blocked w blocked path = false)
      /\ forall path,
          fst (is_path_blocked w path g) =
          init_failed (ensure_initialized w g)
          || match path with
             | None => false
             | Some p =>
                 matches_blocked (blocked_paths (ensure_initialized w g))
                                 (candidate w p)
             end).
Proof.
  split.
  - intros Hrl dirfd p Hrel Hfd. unfold is_path_blocked_at.
    rewrite Hrel. apply Z.eqb_neq in Hfd. rewrite Hfd, Hrl. reflexivity.
  - intros Hrp.
    assert (Hres : forall blocked path,
               is_resolved_path_blocked w blocked path = false).
    { intros blocked [p|]; unfold is_resolved_path_blocked;
        [rewrite Hrp|]; reflexivity. }
    split; [exact Hres|]. intros path.
    rewrite is_path_blocked_verdict. cbv zeta. f_equal.
    destruct path as [p|]; [|reflexivity].
    rewrite Hres, orb_false_r. unfold blocked_paths_count.
    destruct (blocked_paths (ensure_initialized w g)); reflexivity.
Qed.

Lemma helper_lookup_failure_witness :
  is_path_blocked_at host_no_readlink 7 (Some "notes.txt") globals0
    = (true, globals0)
  /\ fst (is_path_blocked host_no_realpath (Some "/app/secret") globals0)
     = true.
Proof.
  destruct (helper_lookup_failure host_no_readlink globals0) as [H1 _].
  destruct (helper_lookup_failure host_no_realpath globals0) as [_ H2].
  split.
  - apply H1; [reflexivity | reflexivity | discriminate].
  - destruct (H2 eq_refl) as [_ H3]. rewrite H3. reflexivity.
Defined.

(* ====================================================================== *)
(** ** What the loader stores *)
(* ====================================================================== *)

Lemma Forall_firstn_of {A} (P : A -> Prop) (n : nat) (l : list A) :
  Forall P l -> Forall P (firstn n l).
Proof.
  intros H. rewrite <- (firstn_skipn n l) in H.
  now apply Forall_app in H as [H _].
Qed.

(** C7 as stated fails: a relative token is stored as it is, the token [/]
    is stored with its separator, and a space in front of a trailing
    separator stays. *)
Lemma loader_keeps_relative_and_root :
  blocked_paths (ensure_initialized host_odd_config globals0)
    = ["app"; "/"; "/x "]
  /\ ~ is_absolute "app"
  /\ ends_with "/" "/".
Proof.
  split; [reflexivity|]. split.
  - intros [rest H]. discriminate.
  - now exists "".
Qed.

(** C7, amended.  After configuration loading the list holds at most 64
    prefixes; each is non-empty, ends with a separator only if it is [/]
    itself, and is the trimmed form of one of the tokens obtained by
    splitting the configured text on [:]; it is absolute exactly when its
    token is, once the leading spaces are gone.  Trimming removes leading
    spaces, then trailing spaces, then trailing separators (so [/app/] is
    stored as [/app]); tokens empty after trimming are skipped and what
    does not fit in the table is dropped. *)
Theorem loader_stored_prefixes (w : Host) :
  let stored := blocked_paths (ensure_initialized w globals0) in
  let tokens := strtok_all ":" (configured_paths w) in
  (List.length stored <= MAX_BLOCKED_PATHS)%nat
  /\ stored = (if host_strdup_paths w
               then firstn MAX_BLOCKED_PATHS (kept_tokens w tokens 0)
               else [])
  /\ Forall (fun p =>
               p <> ""
               /\ (ends_with "/" p -> p = "/")
               /\ exists token,
                   In token tokens /\ p = trim_token token
                   /\ (is_absolute p <->
                       is_absolute (skip_delims " " token)))
            stored
  /\ Forall (fun t => t <> "" /\ no_char ":" t = true) tokens
  /\ trim_token "/app/" = "/app"
  /\ trim_token "  /app// " = "/app".
Proof.
  cbv zeta. rewrite loader_state.
  split; [|split; [|split; [|split; [|split]]]]; try reflexivity.
  - destruct (host_strdup_paths w); cbn [blocked_paths];
      [apply firstn_le_length | simpl; lia].
  - destruct (host_strdup_paths w); reflexivity.
  - destruct (host_strdup_paths w); cbn [blocked_paths]; [|constructor].
    apply Forall_firstn_of.
    eapply Forall_impl; [|apply kept_tokens_ok]. simpl.
    intros p [H1 [H2 [token [Hin ->]]]]. repeat split; auto.
    exists token. repeat split; auto; apply trim_token_absolute.
  - apply strtok_all_ok.
Qed.

(* ====================================================================== *)
(** ** A token whose duplication fails *)
(* ====================================================================== *)

(** With no prefix stored the resolver has nothing to report. *)
Lemma is_resolved_path_blocked_nil (w : Host) (path : option string) :
  is_resolved_path_blocked w [] path = false.
Proof.
  unfold is_resolved_path_blocked.
  repeat match goal with
         | |- context [match ?x with _ => _ end] => destruct x
         end; reflexivity.
Qed.




(* ====================================================================== *)
(** ** The match rule inside the oracle *)
(* ====================================================================== *)

Lemma not_under_prefix (q c : string) :
  prefix_blocks q c = false -> ~ under_prefix q c.
Proof. intros H Hu. apply prefix_blocks_rule in Hu. congruence. Qed.

(** For an absolute path the canonicalizer asks the host for memory only. *)
Lemma candidate_absolute (w : Host) (p : string) :
  host_strdup_work w = true ->
  Ascii.eqb (char_at p 0) "/" = true ->
  candidate w p = candidate host_plain p.
Proof.
  intros Hdup Habs.
  unfold candidate, normalize_path, make_absolute.
  rewrite Habs, Hdup. reflexivity.
Qed.

(** A textual match of any stored prefix blocks. *)
Lemma is_path_blocked_on_match (w : Host) (g : Globals) (p q : string) :
  In q (blocked_paths (ensure_initialized w g)) ->
  under_prefix q (candidate w p) ->
  fst (is_path_blocked w (Some p) g) = true.
Proof.
  intros Hin Hu. rewrite is_path_blocked_verdict. cbv zeta.
  apply orb_true_iff. right. apply andb_true_iff. split.
  - unfold blocked_paths_count.
    destruct (blocked_paths (ensure_initialized w g)); [destruct Hin|].
    reflexivity.
  - apply orb_true_iff. left. apply matches_blocked_rule. eauto.
Qed.

(** C1 as stated fails: with the default list a path under the second
    prefix is blocked without being under the first, and with the single
    prefix [/app] the path [/applications/foo] is blocked when
    [/applications] is a symbolic link into [/app]. *)
Lemma oracle_blocks_outside_the_prefix :
  (In "/app" (blocked_paths (ensure_initialized host_plain globals0))
   /\ fst (is_path_blocked host_plain (Some "/.apps_data/x") globals0) = true
   /\ ~ under_prefix "/app" (candidate host_plain "/.apps_data/x"))
  /\ (blocked_paths (ensure_initialized host_app_link globals0) = ["/app"]
      /\ fst (is_path_blocked host_app_link (Some "/applications/foo")
                globals0) = true
      /\ ~ under_prefix "/app" (candidate host_app_link "/applications/foo")).
Proof.
  repeat split; try (left; reflexivity); apply not_under_prefix; reflexivity.
Qed.

(** C1, amended.  A prefix matches a candidate exactly when the candidate
    is the prefix or begins with the prefix followed by [/].  With the
    fail-closed flag clear, the oracle blocks a non-null path exactly when
    some prefix of the list matches the candidate (the canonical form of
    the path, or the raw path when canonicalization fails) or the
    symlink-aware resolver reports a match; a match of any prefix of the
    list always blocks.  With the single prefix [/app] and canonicalization
    succeeding, the oracle blocks [/app], [/app/x], [/./app/./x] and
    [/tmp/../app/x]; [/applications/foo] is not matched, and is blocked
    only if the resolver reports it. *)
Theorem oracle_match_rule (w : Host) (g : Globals) :
  let g' := ensure_initialized w g in
  (forall q c, prefix_blocks q c = true <-> under_prefix q c)
  /\ (init_failed g' = false ->
      forall p,
        fst (is_path_blocked w (Some p) g) = true <->
        (exists q, In q (blocked_paths g') /\ under_prefix q (candidate w p))
        \/ is_resolved_path_blocked w (blocked_paths g')
             (Some (candidate w p)) = true)
  /\ (forall p q,
        In q (blocked_paths g') -> under_prefix q (candidate w p) ->
        fst (is_path_blocked w (Some p) g) = true)
  /\ (host_strdup_work w = true -> blocked_paths g' = ["/app"] ->
      fst (is_path_blocked w (Some "/app") g) = true
      /\ fst (is_path_blocked w (Some "/app/x") g) = true
      /\ fst (is_path_blocked w (Some "/./app/./x") g) = true
      /\ fst (is_path_blocked w (Some "/tmp/../app/x") g) = true
      /\ ~ under_prefix "/app" (candidate w "/applications/foo")
      /\ (init_failed g' = false ->
          fst (is_path_blocked w (Some "/applications/foo") g) =
          is_resolved_path_blocked w ["/app"] (Some "/applications/foo"))).
Proof.
  cbv zeta.
  assert (Hmatch : forall p q,
    In q (blocked_paths (ensure_initialized w g)) ->
    under_prefix q (candidate w p) ->
    fst (is_path_blocked w (Some p) g) = true).
  { intros p q. apply is_path_blocked_on_match. }
  split; [exact prefix_blocks_rule|]. split; [|split; [exact Hmatch|]].
  - intros Hflag p. rewrite is_path_blocked_verdict. cbv zeta.
    rewrite Hflag, orb_false_l, andb_true_iff, orb_true_iff.
    rewrite matches_blocked_rule. split; [tauto|].
    intros H. split; [|exact H]. unfold blocked_paths_count.
    destruct (blocked_paths (ensure_initialized w g)); [|reflexivity].
    destruct H as [[q [[] _]] | H].
    rewrite is_resolved_path_blocked_nil in H. discriminate.
  - intros Hdup Hl.
    assert (Hin : In "/app" (blocked_paths (ensure_initialized w g)))
      by (rewrite Hl; left; reflexivity).
    assert (Hc : forall p, Ascii.eqb (char_at p 0) "/" = true ->
                 prefix_blocks "/app" (candidate host_plain p) = true ->
                 fst (is_path_blocked w (Some p) g) = true).
    { intros p Habs Hp. apply (Hmatch p "/app" Hin).
      rewrite candidate_absolute by assumption.
      now apply prefix_blocks_rule. }
    repeat split; try (apply Hc; reflexivity).
    + rewrite candidate_absolute by (assumption || reflexivity).
      apply not_under_prefix. reflexivity.
    + intros Hflag. rewrite is_path_blocked_verdict. cbv zeta.
      unfold blocked_paths_count.
      rewrite Hflag, Hl, candidate_absolute by (assumption || reflexivity).
      reflexivity.
Qed.

Lemma oracle_match_rule_witness :
  fst (is_path_blocked host_app (Some "/tmp/../app/x") globals0) = true
  /\ fst (is_path_blocked host_app (Some "/applications/foo") globals0)
     = false.
Proof.
  destruct (oracle_match_rule host_app globals0) as [_ [_ [_ H]]].
  destruct (H eq_refl eq_refl) as [_ [_ [_ [H4 [_ H6]]]]].
  split; [exact H4|]. rewrite (H6 eq_refl). reflexivity.
Defined.

(* ====================================================================== *)
(** ** Descriptor-relative queries *)
(* ====================================================================== *)


Lemma is_path_blocked_at_initialized (w : Host) (dirfd : Z)
    (path : option string) (g : Globals) :
  fst (is_path_blocked_at w dirfd path (ensure_initialized w g)) =
  fst (is_path_blocked_at w dirfd path g).
Proof.
  unfold is_path_blocked_at. destruct path as [p|]; [|reflexivity].
  destruct (Ascii.eqb _ _); [now rewrite is_path_blocked_initialized|].
  destruct (_ =? _); [now rewrite is_path_blocked_initialized|].
  destruct (host_readlink w); [|reflexivity].
  destruct (call_readlink _ _ _); [|reflexivity].
  destruct (snprintf_path _ _ _) as [n full_path].
  destruct (_ >=? _); [reflexivity | now rewrite is_path_blocked_initialized].
Qed.

(* ====================================================================== *)
(** ** The hooks *)
(* ====================================================================== *)

Section HookFacts.

Variable FS : Type.
Variable libc : Entry.t -> call -> FS -> Z -> retval * FS * Z.
Variable w : Host.

Lemma block_outcome (v : retval) (s : Sys FS) (g' : Globals) :
  g' = sys_globals s \/ g' = ensure_initialized w (sys_globals s) ->
  blocked_outcome w v s (BLOCK_AND_RETURN v s g').
Proof. intros H. exists g'. split; [reflexivity | exact H]. Qed.

Lemma eval_guard_globals (k : guard) (c : call) (g : Globals) :
  snd (eval_guard w k c g) = g
  \/ snd (eval_guard w k c g) = ensure_initialized w g.
Proof.
  destruct k; simpl.
  - right. apply is_path_blocked_globals.
  - apply is_path_blocked_at_globals.
  - destruct (arg_path c); [right; apply is_path_blocked_globals | now left].
  - pose proof (is_path_blocked_globals w (arg_path c) g) as H1.
    destruct (is_path_blocked w (arg_path c) g) as [b g1]. simpl in H1.
    subst g1. destruct b; [now right|]. right.
    rewrite is_path_blocked_globals. apply ensure_initialized_idem.
  - pose proof (is_path_blocked_at_globals w (arg_dirfd c) (arg_path c) g)
      as H1.
    destruct (is_path_blocked_at w (arg_dirfd c) (arg_path c) g) as [b g1].
    simpl in H1. destruct b; [exact H1|].
    pose proof (is_path_blocked_at_globals w (arg_dirfd2 c) (arg_path2 c) g1)
      as H2.
    destruct H1 as [-> | ->]; [exact H2|].
    rewrite ensure_initialized_idem in H2. right. tauto.
Qed.

(** Each guard, as a boolean over the verdicts of the oracle. *)
Lemma eval_guard_verdict (k : guard) (c : call) (g : Globals) :
  fst (eval_guard w k c g) =
  match k with
  | GPath => fst (is_path_blocked w (arg_path c) g)
  | GPathAt => fst (is_path_blocked_at w (arg_dirfd c) (arg_path c) g)
  | GPathNonNull =>
      match arg_path c with
      | None => false
      | Some p => fst (is_path_blocked w (Some p) g)
      end
  | GEither =>
      fst (is_path_blocked w (arg_path c) g)
      || fst (is_path_blocked w (arg_path2 c) g)
  | GEitherAt =>
      fst (is_path_blocked_at w (arg_dirfd c) (arg_path c) g)
      || fst (is_path_blocked_at w (arg_dirfd2 c) (arg_path2 c) g)
  end.
Proof.
  destruct k; simpl; try reflexivity.
  - destruct (arg_path c); reflexivity.
  - pose proof (is_path_blocked_globals w (arg_path c) g) as H1.
    destruct (is_path_blocked w (arg_path c) g) as [b g1]. simpl in *.
    subst g1. destruct b; [reflexivity|].
    now rewrite is_path_blocked_initialized.
  - pose proof (is_path_blocked_at_globals w (arg_dirfd c) (arg_path c) g)
      as H1.
    destruct (is_path_blocked_at w (arg_dirfd c) (arg_path c) g) as [b g1].
    simpl in *. destruct b; [reflexivity|].
    destruct H1 as [-> | ->]; [reflexivity|].
    apply is_path_blocked_at_initialized.
Qed.

Lemma hook_guarded_blocked (e : Entry.t) (k : guard) (v : retval)
    (c : call) (s : Sys FS) :
  body e = Guarded k v ->
  fst (eval_guard w k c (sys_globals s)) = true ->
  blocked_outcome w v s (hook libc w e c s).
Proof.
  intros Hb Hg. unfold hook. rewrite Hb.
  pose proof (eval_guard_globals k c (sys_globals s)) as Hs.
  destruct (eval_guard w k c (sys_globals s)) as [b g']. simpl in *.
  subst b. now apply block_outcome.
Qed.



End HookFacts.



(* ====================================================================== *)
(** ** Blocked calls *)
(* ====================================================================== *)




(* ====================================================================== *)
(** ** Symbolic links with a relative target *)
(* ====================================================================== *)

Lemma strrchr_none (c : ascii) (s : string) :
  no_char c s = true -> strrchr s c = None.
Proof.
  induction s as [|a s IH]; simpl; [reflexivity|].
  intros [Ha Hs]%andb_true_iff. rewrite (IH Hs).
  apply negb_true_iff in Ha. now rewrite Ha.
Qed.

(** [strrchr] cuts at the last separator. *)
Lemma strrchr_last (c : ascii) (dir name : string) :
  no_char c name = true ->
  strrchr (dir ++ String c name) c = Some (dir, name).
Proof.
  intros Hn. induction dir as [|a dir IH]; simpl.
  - rewrite (strrchr_none _ _ Hn), Ascii.eqb_refl. reflexivity.
  - now rewrite IH.
Qed.

(** The target check of [symlink], for a relative target: when the
    directory of the link, [/] and the target give a text whose length is
    an [int] and that the oracle blocks, the check answers blocked.  (It
    also does when the text does not fit in [PATH_MAX].) *)
Lemma is_symlink_target_blocked_composite (w : Host) (t lp dir : string)
    (g : Globals) :
  Ascii.eqb (char_at t 0) "/" = false ->
  link_directory w lp dir ->
  strlen (dir ++ "/" ++ t) <= INT_MAX ->
  fst (is_path_blocked w (Some (dir ++ "/" ++ t)) g) = true ->
  exists g',
    is_symlink_target_blocked w (Some t) (Some lp) g = Some (true, g')
    /\ (g' = g \/ g' = ensure_initialized w g).
Proof.
  intros Hrel Hdir Hint Hblk.
  unfold is_symlink_target_blocked. rewrite Hrel.
  destruct (strlen lp >=? PATH_MAX); [exists g; auto|].
  assert (Hld : match strrchr lp "/" with
                | None => getcwd w PATH_MAX
                | Some (before, _) =>
                    if String.eqb before "" then Some "/" else Some before
                end = Some dir
                \/ match strrchr lp "/" with
                   | None => getcwd w PATH_MAX
                   | Some (before, _) =>
                       if String.eqb before "" then Some "/"
                       else Some before
                   end = None).
  { destruct Hdir as [[name [Hn [[Hne ->] | [-> ->]]]] | [Hn Hcwd]].
    - left. change (dir ++ "/" ++ name) with (dir ++ String "/" name).
      rewrite strrchr_last by assumption.
      destruct (String.eqb_spec dir ""); [contradiction | reflexivity].
    - left. change ("/" ++ name) with ("" ++ String "/" name).
      rewrite strrchr_last by assumption. reflexivity.
    - rewrite (strrchr_none _ _ Hn). unfold getcwd. rewrite Hcwd.
      destruct (_ <=? _); auto. }
  destruct Hld as [-> | ->]; [|exists g; auto].
  destruct (strlen (dir ++ "/" ++ t) <? PATH_MAX) eqn:Efit.
  - apply Z.ltb_lt in Efit. rewrite (snprintf_path_fits _ _ Efit).
    apply Z.ltb_lt in Efit. rewrite Z.geb_leb, Z.leb_antisym, Efit.
    cbn [negb].
    pose proof (is_path_blocked_globals w (Some (dir ++ "/" ++ t)) g) as Hg.
    destruct (is_path_blocked w (Some (dir ++ "/" ++ t)) g) as [b g'].
    cbn [fst snd] in *. subst b. exists g'. auto.
  - apply Z.ltb_ge in Efit.
    pose proof (snprintf_path_long PATH_MAX dir t Hint) as Hn.
    destruct (snprintf_path PATH_MAX dir t) as [n full_target].
    cbn [fst] in Hn. subst n.
    apply Z.geb_le in Efit. rewrite Efit. exists g; auto.
Qed.

(** [symlink] blocks every call with a relative target whose link path
    does not fit in [PATH_MAX]. *)
Lemma is_symlink_target_blocked_long_link (w : Host) (t lp : string)
    (g : Globals) :
  Ascii.eqb (char_at t 0) "/" = false ->
  PATH_MAX <= strlen lp ->
  is_symlink_target_blocked w (Some t) (Some lp) g = Some (true, g).
Proof.
  intros Hrel Hlong. unfold is_symlink_target_blocked. rewrite Hrel.
  apply Z.geb_le in Hlong. now rewrite Hlong.
Qed.

(** [symlinkat] hands the same check the full path of the link whenever
    that path fits in [PATH_MAX] (or blocks at once, when the descriptor
    resolves to the empty text). *)
Lemma symlinkat_target_check (w : Host) (t : string) (newdirfd : Z)
    (lp full : string) (g : Globals) :
  Ascii.eqb (char_at t 0) "/" = false ->
  full_link_path w newdirfd lp full ->
  strlen full < PATH_MAX ->
  symlinkat_target_blocked w (Some t) newdirfd (Some lp) g
  = is_symlink_target_blocked w (Some t) (Some full) g
  \/ symlinkat_target_blocked w (Some t) newdirfd (Some lp) g
     = Some (true, g).
Proof.
  intros Hrel Hfull Hfit.
  unfold symlinkat_target_blocked, full_link_path, call_readlink in *.
  rewrite Hrel.
  destruct (Ascii.eqb (char_at lp 0) "/").
  - subst full. apply Z.ltb_lt in Hfit. rewrite Hfit. now left.
  - destruct (newdirfd =? AT_FDCWD).
    + destruct Hfull as [cwd [-> ->]].
      rewrite (snprintf_path_fits _ _ Hfit).
      apply Z.ltb_lt in Hfit. rewrite Hfit. now left.
    + destruct Hfull as [rl [text [-> [-> ->]]]].
      destruct (_ <=? 0); [now right|].
      rewrite (snprintf_path_fits _ _ Hfit).
      apply Z.ltb_lt in Hfit. rewrite Hfit. now left.
Qed.

(** Without a full path of the link that fits, [symlinkat] makes no check of
    the target at all. *)
Lemma symlinkat_target_skipped (w : Host) (t : string) (newdirfd : Z)
    (lp : string) (g : Globals) :
  Ascii.eqb (char_at t 0) "/" = false ->
  link_path_unfit w newdirfd lp ->
  symlinkat_target_blocked w (Some t) newdirfd (Some lp) g = Some (false, g).
Proof.
  intros Hrel Hunfit. unfold symlinkat_target_blocked. rewrite Hrel.
  destruct Hunfit as [[Habs Hlong] | [Hnabs [-> Hcwd]]].
  - rewrite Habs. apply Z.ltb_ge in Hlong. now rewrite Hlong.
  - rewrite Hnabs, Z.eqb_refl.
    destruct Hcwd as [-> | [cwd [-> [Hlong Hint]]]]; [reflexivity|].
    pose proof (snprintf_path_long PATH_MAX cwd lp Hint) as Hn.
    destruct (snprintf_path PATH_MAX cwd lp) as [n full_linkpath].
    cbn [fst] in Hn. subst n.
    apply Z.ltb_ge in Hlong. now rewrite Hlong.
Qed.

Lemma is_path_blocked_at_absolute (w : Host) (dirfd : Z) (p : string)
    (g : Globals) :
  Ascii.eqb (char_at p 0) "/" = true ->
  is_path_blocked_at w dirfd (Some p) g = is_path_blocked w (Some p) g.
Proof. intros H. unfold is_path_blocked_at. now rewrite H. Qed.

(** C6.  [symlink] does what the claim says: for a relative target, when
    the oracle blocks the directory that will contain the link, [/] and the
    target (a text whose length is an [int]), the call returns [-1] with
    [EACCES] and the original is not invoked.  [symlinkat] does the same as
    long as the full path of the link fits in [PATH_MAX]; with the prefix
    [/app], creating [/workspace/link3] with target [../app/x] is blocked by
    both.  But when [symlinkat] has no full link path that fits (and the
    link path itself is not judged blocked), it checks nothing about the
    target and forwards the call, whatever the oracle says of the
    composite, whereas [symlink] blocks every call whose link path does not
    fit. *)
Theorem symlink_relative_target_check (FS : Type)
    (libc : Entry.t -> call -> FS -> Z -> retval * FS * Z)
    (w : Host) (c : call) (s : Sys FS) (target linkpath : string) :
  arg_path c = Some target ->
  arg_path2 c = Some linkpath ->
  Ascii.eqb (char_at target 0) "/" = false ->
  (forall dir,
      link_directory w linkpath dir ->
      strlen (dir ++ "/" ++ target) <= INT_MAX ->
      fst (is_path_blocked w (Some (dir ++ "/" ++ target)) (sys_globals s))
        = true ->
      blocked_outcome w (Rnum (-1)) s (hook libc w Entry.symlink c s))
  /\ (forall full dir,
      full_link_path w (arg_dirfd2 c) linkpath full ->
      strlen full < PATH_MAX ->
      link_directory w full dir ->
      strlen (dir ++ "/" ++ target) <= INT_MAX ->
      fst (is_path_blocked w (Some (dir ++ "/" ++ target)) (sys_globals s))
        = true ->
      blocked_outcome w (Rnum (-1)) s (hook libc w Entry.symlinkat c s))
  /\ (target = "../app/x" -> linkpath = "/workspace/link3" ->
      host_strdup_work w = true ->
      blocked_paths (ensure_initialized w (sys_globals s)) = ["/app"] ->
      forall e, e = Entry.symlink \/ e = Entry.symlinkat ->
        hook libc w e c s =
        Returns (Rnum (-1))
          (mkSys (ensure_initialized w (sys_globals s)) EACCES
                 (sys_fs s) (sys_forwarded s)))
  /\ (link_path_unfit w (arg_dirfd2 c) linkpath ->
      fst (is_path_blocked_at w (arg_dirfd2 c) (Some linkpath)
             (sys_globals s)) = false ->
      exists r s',
        hook libc w Entry.symlinkat c s = Returns r s'
        /\ sys_forwarded s' = (sys_forwarded s ++ [Entry.symlinkat])%list)
  /\ (PATH_MAX <= strlen linkpath ->
      blocked_outcome w (Rnum (-1)) s (hook libc w Entry.symlink c s)).
Proof.
  intros Ht Hl Hrel.
  assert (Hsym : forall dir,
      link_directory w linkpath dir ->
      strlen (dir ++ "/" ++ target) <= INT_MAX ->
      fst (is_path_blocked w (Some (dir ++ "/" ++ target)) (sys_globals s))
        = true ->
      hook libc w Entry.symlink c s =
      Returns (Rnum (-1))
        (mkSys (ensure_initialized w (sys_globals s)) EACCES
               (sys_fs s) (sys_forwarded s))).
  { intros dir Hdir Hint Hblk.
    unfold hook. cbn [body]. rewrite Ht, Hl.
    pose proof (is_path_blocked_globals w (Some linkpath) (sys_globals s))
      as Hg1.
    destruct (is_path_blocked w (Some linkpath) (sys_globals s)) as [b g1].
    cbn [snd] in Hg1. subst g1. destruct b; [reflexivity|].
    rewrite <- is_path_blocked_initialized in Hblk.
    destruct (is_symlink_target_blocked_composite w target linkpath dir _
                Hrel Hdir Hint Hblk) as [g' [-> Hg']].
    rewrite ensure_initialized_idem in Hg'.
    destruct Hg' as [-> | ->]; reflexivity. }
  assert (Hat : forall full dir,
      full_link_path w (arg_dirfd2 c) linkpath full ->
      strlen full < PATH_MAX ->
      link_directory w full dir ->
      strlen (dir ++ "/" ++ target) <= INT_MAX ->
      fst (is_path_blocked w (Some (dir ++ "/" ++ target)) (sys_globals s))
        = true ->
      blocked_outcome w (Rnum (-1)) s (hook libc w Entry.symlinkat c s)).
  { intros full dir Hfull Hfit Hdir Hint Hblk.
    unfold hook. cbn [body]. rewrite Ht, Hl.
    pose proof (is_path_blocked_at_globals w (arg_dirfd2 c) (Some linkpath)
                  (sys_globals s)) as Hg1.
    destruct (is_path_blocked_at w (arg_dirfd2 c) (Some linkpath)
                (sys_globals s)) as [b g1].
    cbn [snd] in Hg1. destruct b; [now apply block_outcome|].
    assert (Hblk1 : fst (is_path_blocked w (Some (dir ++ "/" ++ target)) g1)
                    = true).
    { destruct Hg1 as [-> | ->]; [exact Hblk|].
      now rewrite is_path_blocked_initialized. }
    destruct (symlinkat_target_check w target (arg_dirfd2 c) linkpath full
                g1 Hrel Hfull Hfit) as [-> | ->].
    - destruct (is_symlink_target_blocked_composite w target full dir g1
                  Hrel Hdir Hint Hblk1) as [g' [-> Hg']].
      apply block_outcome.
      destruct Hg1 as [-> | ->]; destruct Hg' as [-> | ->]; auto.
      right. apply ensure_initialized_idem.
    - now apply block_outcome. }
  split; [|split; [|split; [|split]]].
  - intros dir Hdir Hint Hblk.
    eexists. split; [exact (Hsym _ Hdir Hint Hblk) | now right].
  - exact Hat.
  - intros -> -> Hdup Hlist.
    assert (Hdir : link_directory w "/workspace/link3" "/workspace").
    { left. exists "link3". split; [reflexivity|]. left.
      split; [discriminate | reflexivity]. }
    assert (Hint : strlen ("/workspace" ++ "/" ++ "../app/x") <= INT_MAX)
      by (apply Z.leb_le; reflexivity).
    assert (Hblk : fst (is_path_blocked w
                          (Some ("/workspace" ++ "/" ++ "../app/x"))
                          (sys_globals s)) = true).
    { apply (is_path_blocked_on_match w _ _ "/app").
      - rewrite Hlist. left. reflexivity.
      - rewrite candidate_absolute by (assumption || reflexivity).
        apply prefix_blocks_rule. reflexivity. }
    intros e [-> | ->]; [exact (Hsym _ Hdir Hint Hblk)|].
    unfold hook. cbn [body]. rewrite Ht, Hl.
    rewrite is_path_blocked_at_absolute by reflexivity.
    pose proof (is_path_blocked_globals w (Some "/workspace/link3")
                  (sys_globals s)) as Hg1.
    destruct (is_path_blocked w (Some "/workspace/link3") (sys_globals s))
      as [b g1].
    cbn [snd] in Hg1. subst g1. destruct b; [reflexivity|].
    rewrite <- is_path_blocked_initialized in Hblk.
    destruct (symlinkat_target_check w "../app/x" (arg_dirfd2 c)
                "/workspace/link3" "/workspace/link3"
                (ensure_initialized w (sys_globals s)) eq_refl eq_refl)
      as [-> | ->]; [reflexivity | | reflexivity].
    destruct (is_symlink_target_blocked_composite w "../app/x"
                "/workspace/link3" "/workspace" _ eq_refl Hdir Hint Hblk)
      as [g' [-> Hg']].
    rewrite ensure_initialized_idem in Hg'.
    destruct Hg' as [-> | ->]; reflexivity.
  - intros Hunfit Hlink.
    unfold hook, forward, call_orig. cbn [body]. rewrite Ht, Hl.
    destruct (is_path_blocked_at w (arg_dirfd2 c) (Some linkpath)
                (sys_globals s)) as [b g1].
    cbn [fst] in Hlink. subst b.
    rewrite (symlinkat_target_skipped w target _ linkpath g1 Hrel Hunfit).
    destruct (libc Entry.symlinkat c (sys_fs s) (sys_errno s))
      as [[r fs'] errno'].
    eexists. eexists. split; reflexivity.
  - intros Hlong. unfold hook. cbn [body]. rewrite Ht, Hl.
    pose proof (is_path_blocked_globals w (Some linkpath) (sys_globals s))
      as Hg1.
    destruct (is_path_blocked w (Some linkpath) (sys_globals s)) as [b g1].
    cbn [snd] in Hg1. subst g1.
    destruct b; [apply block_outcome; now right|].
    rewrite (is_symlink_target_blocked_long_link w _ _ _ Hrel Hlong).
    apply block_outcome. now right.
Qed.

Lemma symlink_relative_target_check_witness :
  hook libc_enoent host_app Entry.symlink
    (mkCall 0 (Some "../app/x") 0 (Some "/workspace/link3") []) sys0
  = Returns (Rnum (-1))
      (mkSys (ensure_initialized host_app globals0) EACCES tt [])
  /\ blocked_outcome host_plain (Rnum (-1)) sys0
       (hook libc_enoent host_plain Entry.symlinkat
          (mkCall 0 (Some "../../.apps_data") AT_FDCWD (Some "work") [])
          sys0)
  /\ (exists r s',
        hook libc_enoent host_app Entry.symlinkat
          (mkCall 0 (Some "../app/x") AT_FDCWD
             (Some ("/workspace/" ++ long_name)) []) sys0
        = Returns r s'
        /\ sys_forwarded s' = [Entry.symlinkat])
  /\ blocked_outcome host_app (Rnum (-1)) sys0
       (hook libc_enoent host_app Entry.symlink
          (mkCall 0 (Some "../app/x") AT_FDCWD
             (Some ("/workspace/" ++ long_name)) []) sys0)
  /\ link_directory host_app ("/workspace/" ++ long_name) "/workspace"
  /\ fst (is_path_blocked host_app (Some ("/workspace" ++ "/" ++ "../app/x"))
            globals0) = true.
Proof.
  split; [|split; [|split; [|split; [|split]]]];
    [| | | | left; exists long_name; split; [reflexivity|]; left;
             split; [discriminate | reflexivity]
           | reflexivity].
  - destruct (symlink_relative_target_check unit libc_enoent host_app
                (mkCall 0 (Some "../app/x") 0 (Some "/workspace/link3") [])
                sys0 "../app/x" "/workspace/link3" eq_refl eq_refl eq_refl)
      as [_ [_ [H _]]].
    apply H; auto.
  - destruct (symlink_relative_target_check unit libc_enoent host_plain
                (mkCall 0 (Some "../../.apps_data") AT_FDCWD (Some "work") [])
                sys0 "../../.apps_data" "work" eq_refl eq_refl eq_refl)
      as [_ [H _]].
    apply (H "/home/user/work" "/home/user").
    + exists "/home/user". split; reflexivity.
    + reflexivity.
    + left. exists "work". split; [reflexivity|]. left.
      split; [discriminate | reflexivity].
    + apply Z.leb_le. reflexivity.
    + reflexivity.
  - destruct (symlink_relative_target_check unit libc_enoent host_app
                (mkCall 0 (Some "../app/x") AT_FDCWD
                   (Some ("/workspace/" ++ long_name)) [])
                sys0 "../app/x" ("/workspace/" ++ long_name)
                eq_refl eq_refl eq_refl)
      as [_ [_ [_ [H _]]]].
    apply H; [|reflexivity].
    left. split; [reflexivity | apply Z.leb_le; reflexivity].
  - destruct (symlink_relative_target_check unit libc_enoent host_app
                (mkCall 0 (Some "../app/x") AT_FDCWD
                   (Some ("/workspace/" ++ long_name)) [])
                sys0 "../app/x" ("/workspace/" ++ long_name)
                eq_refl eq_refl eq_refl)
      as [_ [_ [_ [_ H]]]].
    apply H. apply Z.leb_le. reflexivity.
Defined.

(* ====================================================================== *)
(** ** More on the canonicalizer *)
(* ====================================================================== *)

Section CanonicalizerMore.

(** A delimiter closes the token in progress and starts afresh. *)
Lemma tokens_from_split (d : ascii) (a b cur : string) :
  tokens_from d (a ++ String d b) cur =
  (tokens_from d a cur ++ tokens_from d b "")%list.
Proof.
  revert cur. induction a as [|x a IH]; intros cur; simpl.
  - rewrite Ascii.eqb_refl. destruct (String.eqb cur ""); reflexivity.
  - destruct (Ascii.eqb x d); [|apply IH].
    destruct (String.eqb cur ""); simpl; now rewrite IH.
Qed.

Lemma strtok_all_split (d : ascii) (a b : string) :
  strtok_all d (a ++ String d b) = (strtok_all d a ++ strtok_all d b)%list.
Proof. apply tokens_from_split. Qed.

Lemma strtok_all_component (c : string) :
  c <> "" -> no_char "/" c = true -> strtok_all "/" c = [c].
Proof.
  intros Hne Hns. unfold strtok_all.
  rewrite <- (append_nil_r c) at 1. rewrite tokens_from_run by assumption.
  simpl. destruct (String.eqb_spec c ""); congruence.
Qed.

Lemma walk_components_app (xs ys acc : list string) :
  walk_components (xs ++ ys) acc = walk_components ys (walk_components xs acc).
Proof.
  revert acc. induction xs as [|x xs IH]; intros acc; simpl; [reflexivity|].
  destruct (String.eqb x "."); [apply IH|].
  destruct (String.eqb x ".."); [apply IH|].
  destruct (0 <? strlen x); apply IH.
Qed.

(** The length of [/c1/.../cn]. *)
Lemma tokens_from_weight (d : ascii) (s cur : string) :
  strlen (join_components (tokens_from d s cur)) <= strlen s + 1 + strlen cur.
Proof.
  revert cur. induction s as [|a s IH]; intros cur; simpl tokens_from.
  - pose proof (strlen_nonneg cur).
    destruct (String.eqb cur ""); simpl join_components.
    + change (strlen "") with 0. lia.
    + rewrite strlen_String, strlen_append. change (strlen "") with 0. lia.
  - rewrite strlen_String. pose proof (strlen_nonneg cur).
    destruct (Ascii.eqb a d).
    + specialize (IH ""). change (strlen "") with 0 in IH.
      destruct (String.eqb cur ""); [lia|].
      simpl join_components. rewrite strlen_String, strlen_append. lia.
    + specialize (IH (cur ++ String a "")).
      rewrite strlen_append, strlen_String in IH.
      change (strlen "") with 0 in IH. lia.
Qed.

Lemma strtok_all_weight_absolute (s : string) :
  strlen (join_components (strtok_all "/" (String "/" s)))
  <= strlen (String "/" s).
Proof.
  unfold strtok_all. simpl tokens_from.
  pose proof (tokens_from_weight "/" s "") as H.
  change (strlen "") with 0 in H. rewrite strlen_String. lia.
Qed.

Lemma weight_cons (c : string) (cs : list string) :
  strlen (join_components (c :: cs)) =
  1 + strlen c + strlen (join_components cs).
Proof.
  simpl join_components. rewrite strlen_String, strlen_append. lia.
Qed.

Lemma removelast_weight (cs : list string) :
  strlen (join_components (removelast cs)) <= strlen (join_components cs).
Proof.
  induction cs as [|c cs IH]; [simpl; lia|].
  destruct cs as [|c' cs'].
  - rewrite weight_cons. simpl removelast. simpl join_components.
    pose proof (strlen_nonneg c). change (strlen "") with 0. lia.
  - change (removelast (c :: c' :: cs')) with (c :: removelast (c' :: cs')).
    rewrite !weight_cons in *. lia.
Qed.

Lemma walk_components_weight (tokens acc : list string) :
  strlen (join_components (walk_components tokens acc))
  <= strlen (join_components tokens) + strlen (join_components acc).
Proof.
  revert acc. induction tokens as [|t tokens IH]; intros acc;
    simpl walk_components.
  - simpl join_components. change (strlen "") with 0. lia.
  - simpl join_components. rewrite strlen_String, strlen_append.
    pose proof (strlen_nonneg t).
    destruct (String.eqb t "."); [specialize (IH acc); lia|].
    destruct (String.eqb t "..").
    + specialize (IH (removelast acc)).
      pose proof (removelast_weight acc). lia.
    + destruct (0 <? strlen t); [|specialize (IH acc); lia].
      specialize (IH (acc ++ [t])%list).
      rewrite join_components_app, strlen_append in IH.
      simpl join_components in IH.
      rewrite strlen_String, strlen_append in IH.
      change (strlen "") with 0 in IH. lia.
Qed.

(** The rebuild loop cannot overflow a buffer that holds the whole text. *)
Lemma rebuild_enough_room (cs : list string) (resolved : string) (size : Z) :
  strlen resolved + strlen (join_components cs) < size ->
  rebuild cs resolved size = Some (resolved ++ join_components cs).
Proof.
  revert resolved. induction cs as [|c cs IH]; intros resolved Hfit; simpl.
  - now rewrite append_nil_r.
  - simpl join_components in Hfit.
    rewrite strlen_String, strlen_append in Hfit.
    pose proof (strlen_nonneg (join_components cs)).
    destruct (_ >=? _) eqn:E; [zcmp E; lia|].
    rewrite IH.
    + now rewrite append_assoc.
    + rewrite strlen_append, strlen_String. lia.
Qed.

End CanonicalizerMore.

Section CanonicalizerRewrites.

Lemma relative_first_char (p : string) :
  ~ is_absolute p -> Ascii.eqb (char_at p 0) "/" = false.
Proof.
  intros H. destruct p as [|x p]; [reflexivity|].
  unfold char_at. simpl. destruct (Ascii.eqb_spec x "/"); [|reflexivity].
  subst x. exfalso. apply H. now exists p.
Qed.

Lemma append_self_l (pre p : string) : p = pre ++ p -> pre = "".
Proof.
  intros H. apply (f_equal String.length) in H.
  rewrite length_append in H. destruct pre; [reflexivity | simpl in H; lia].
Qed.

(** A path with the same first byte that is no longer is made absolute with
    the same front. *)
Lemma make_absolute_shorter (w : Host) (p q a : string) :
  make_absolute w p = Some a ->
  char_at q 0 = char_at p 0 -> strlen q <= strlen p ->
  exists pre, a = pre ++ p /\ make_absolute w q = Some (pre ++ q).
Proof.
  unfold make_absolute. intros Ha Hc Hl. rewrite Hc.
  destruct (negb _).
  - destruct (getcwd w PATH_MAX) as [cwd|]; [|discriminate].
    destruct (_ >=? _) eqn:E; [discriminate|]. injection Ha as <-. zcmp E.
    exists (cwd ++ "/"). rewrite !append_assoc. split; [reflexivity|].
    destruct (_ >=? _) eqn:E2; [zcmp E2; lia | reflexivity].
  - destruct (_ >=? _) eqn:E; [discriminate|]. injection Ha as <-. zcmp E.
    exists "". split; [reflexivity|].
    destruct (_ >=? _) eqn:E2; [zcmp E2; lia | reflexivity].
Qed.

(** Two paths that leave the same component stack canonicalize alike. *)
Lemma normalize_path_same_walk (w : Host) (p q : string) (size : Z)
    (r : string) :
  char_at q 0 = char_at p 0 -> strlen q <= strlen p ->
  (forall pre,
      make_absolute w p = Some (pre ++ p) ->
      walk_components (strtok_all "/" (pre ++ p)) [] =
      walk_components (strtok_all "/" (pre ++ q)) []) ->
  normalize_path w (Some p) size = Some r ->
  normalize_path w (Some q) size = Some r.
Proof.
  intros Hc Hl Hw. unfold normalize_path.
  destruct (size =? 0); [discriminate|].
  destruct (make_absolute w p) as [a|] eqn:Ha; [|discriminate].
  destruct (make_absolute_shorter _ _ _ _ Ha Hc Hl) as [pre [-> Hq]].
  rewrite Hq. destruct (negb _); [discriminate|].
  now rewrite (Hw pre eq_refl).
Qed.

Lemma strtok_all_dot : strtok_all "/" "." = ["."].
Proof. reflexivity. Qed.

End CanonicalizerRewrites.

(** X1.  A path that [normalize_path] returns is absolute, shorter than
    [PATH_MAX], and is [/] or the separator-joined list of its components,
    none of which is empty, [.] or [..]: it has no doubled or trailing
    separator. *)
Theorem normalize_path_canonical_form (w : Host) (p r : string) :
  normalize_path w (Some p) PATH_MAX = Some r ->
  is_absolute r
  /\ strlen r < PATH_MAX
  /\ Forall component_ok (strtok_all "/" r)
  /\ r = match strtok_all "/" r with
         | [] => "/"
         | cs => join_components cs
         end.
Proof.
  intros H.
  destruct (normalize_path_shape _ _ _ _ H) as [cs [Hcs [Hr [-> _]]]].
  destruct cs as [|c cs'] eqn:Ecs.
  - simpl. repeat split; [now exists "" | constructor].
  - rewrite <- Ecs in *.
    assert (Hne : join_components cs <> "") by (subst cs; discriminate).
    destruct (String.eqb_spec (join_components cs) ""); [contradiction|].
    rewrite strtok_all_join by assumption.
    repeat split; auto.
    + subst cs. simpl. eexists. reflexivity.
    + apply (rebuild_fits _ _ _ _ Hr). subst cs. discriminate.
    + subst cs. reflexivity.
Qed.

Lemma normalize_path_canonical_form_witness :
  is_absolute "/home/user/b" /\ strlen "/home/user/b" < PATH_MAX.
Proof.
  destruct (normalize_path_canonical_form host_plain "a//../b/" "/home/user/b"
              eq_refl) as [H1 [H2 _]].
  split; assumption.
Defined.

(** Once the text made absolute starts with a separator, the rebuilt path
    fits wherever that text did. *)
Lemma normalize_path_of_absolute_text (w : Host) (p rest : string) :
  host_strdup_work w = true ->
  make_absolute w p = Some (String "/" rest) ->
  strlen (String "/" rest) < PATH_MAX ->
  exists r, normalize_path w (Some p) PATH_MAX = Some r
            /\ strlen r <= strlen (String "/" rest).
Proof.
  intros Hdup Habs Hlen. unfold normalize_path.
  change (PATH_MAX =? 0) with false. cbv iota. rewrite Habs, Hdup.
  cbn [negb]. cbv zeta.
  set (cs := walk_components (strtok_all "/" (String "/" rest)) []).
  assert (Hw : strlen (join_components cs) <= strlen (String "/" rest)).
  { pose proof (walk_components_weight
                  (strtok_all "/" (String "/" rest)) []) as H1.
    pose proof (strtok_all_weight_absolute rest) as H2.
    fold cs in H1. simpl join_components in H1 at 3.
    change (strlen "") with 0 in H1. rewrite Z.add_0_r in H1.
    exact (Z.le_trans _ _ _ H1 H2). }
  clearbody cs.
  rewrite rebuild_enough_room; [|change (strlen "") with 0; lia].
  simpl append. eexists. split; [reflexivity|].
  destruct (String.eqb (join_components cs) ""); [|exact Hw].
  rewrite (strlen_String _ rest). change (strlen "/") with 1.
  pose proof (strlen_nonneg rest). lia.
Qed.

(** X2.  With memory for the working copy, canonicalization cannot fail on
    an absolute path shorter than [PATH_MAX], nor on a relative path whose
    join with an absolute working directory is shorter than [PATH_MAX];
    the canonical form is never longer than the absolute text it was made
    from. *)
Theorem normalize_path_succeeds (w : Host) (p : string) :
  host_strdup_work w = true ->
  (is_absolute p -> strlen p < PATH_MAX ->
   exists r, normalize_path w (Some p) PATH_MAX = Some r
             /\ strlen r <= strlen p)
  /\ (forall cwd,
        host_cwd w = Some cwd -> is_absolute cwd -> ~ is_absolute p ->
        strlen cwd + 1 + strlen p < PATH_MAX ->
        exists r, normalize_path w (Some p) PATH_MAX = Some r
                  /\ strlen r <= strlen cwd + 1 + strlen p).
Proof.
  intros Hdup. split.
  - intros [rest ->] Hlen.
    apply normalize_path_of_absolute_text; auto.
    unfold make_absolute. simpl negb. cbv iota.
    destruct (_ >=? _) eqn:E; [exfalso; zcmp E; lia | reflexivity].
  - intros cwd Hcwd [rest ->] Hrel Hlen.
    assert (Habs : make_absolute w p = Some (String "/" rest ++ "/" ++ p)).
    { unfold make_absolute, getcwd.
      rewrite (relative_first_char _ Hrel), Hcwd. simpl negb. cbv iota.
      pose proof (strlen_nonneg p).
      destruct (_ <=? _) eqn:E1; [|exfalso; zcmp E1; lia].
      destruct (_ >=? _) eqn:E2; [exfalso; zcmp E2; lia | reflexivity]. }
    destruct (normalize_path_of_absolute_text w p (rest ++ "/" ++ p) Hdup
                Habs) as [r [Hr Hl]].
    + change (String "/" (rest ++ "/" ++ p))
        with (String "/" rest ++ String "/" p).
      rewrite strlen_append, (strlen_String _ p). lia.
    + exists r. split; [exact Hr|].
      change (String "/" (rest ++ "/" ++ p))
        with (String "/" rest ++ String "/" p) in Hl.
      rewrite strlen_append, (strlen_String _ p) in Hl. lia.
Qed.

Lemma normalize_path_succeeds_witness :
  (exists r, normalize_path host_plain (Some "/a/./b/../c") PATH_MAX = Some r
             /\ strlen r <= strlen "/a/./b/../c")
  /\ (exists r, normalize_path host_plain (Some "x/../y") PATH_MAX = Some r
                /\ strlen r <= strlen "/home/user" + 1 + strlen "x/../y").
Proof.
  destruct (normalize_path_succeeds host_plain "/a/./b/../c" eq_refl)
    as [H1 _].
  destruct (normalize_path_succeeds host_plain "x/../y" eq_refl) as [_ H2].
  split.
  - apply H1; [eexists; reflexivity | reflexivity].
  - apply (H2 "/home/user"); try reflexivity.
    + eexists; reflexivity.
    + intros [rest H]. discriminate.
Defined.

Section InsertedComponents.

Lemma strtok_all_after (pre a x : string) :
  strtok_all "/" (pre ++ a ++ String "/" x) =
  (strtok_all "/" (pre ++ a) ++ strtok_all "/" x)%list.
Proof. rewrite <- append_assoc. apply strtok_all_split. Qed.

Lemma strtok_all_leading (x : string) :
  strtok_all "/" (String "/" x) = strtok_all "/" x.
Proof. reflexivity. Qed.

Lemma first_char_insert (a x y : string) :
  char_at (a ++ String "/" y) 0 = char_at (a ++ String "/" x) 0.
Proof. destruct a; reflexivity. Qed.

Lemma walk_one_component (c : string) (acc : list string) :
  component_ok c -> walk_components [c] acc = (acc ++ [c])%list.
Proof.
  intros H. rewrite walk_components_canonical; [reflexivity|].
  constructor; [exact H | constructor].
Qed.

End InsertedComponents.

(** X3.  Canonicalization does not see a [.] component, a doubled
    separator or a trailing separator: a path with [/./] or [//] in place
    of one [/], or with a [/] appended, has the canonical form of the
    plain path. *)
Theorem normalize_path_skips_dots_and_separators (w : Host) (a b : string)
    (size : Z) (r : string) :
  (normalize_path w (Some (a ++ "/./" ++ b)) size = Some r ->
   normalize_path w (Some (a ++ "/" ++ b)) size = Some r)
  /\ (normalize_path w (Some (a ++ "//" ++ b)) size = Some r ->
      normalize_path w (Some (a ++ "/" ++ b)) size = Some r)
  /\ (a <> "" ->
      normalize_path w (Some (a ++ "/")) size = Some r ->
      normalize_path w (Some a) size = Some r).
Proof.
  split; [|split].
  - apply normalize_path_same_walk.
    + apply (first_char_insert a ("./" ++ b) b).
    + rewrite !strlen_append. change (strlen "/./") with 3.
      change (strlen "/") with 1. lia.
    + intros pre _.
      change (a ++ "/./" ++ b) with (a ++ String "/" ("." ++ String "/" b)).
      change (a ++ "/" ++ b) with (a ++ String "/" b).
      rewrite !strtok_all_after, strtok_all_split, !walk_components_app.
      reflexivity.
  - apply normalize_path_same_walk.
    + apply (first_char_insert a (String "/" b) b).
    + rewrite !strlen_append. change (strlen "//") with 2.
      change (strlen "/") with 1. lia.
    + intros pre _.
      change (a ++ "//" ++ b) with (a ++ String "/" (String "/" b)).
      change (a ++ "/" ++ b) with (a ++ String "/" b).
      rewrite !strtok_all_after, strtok_all_leading. reflexivity.
  - intros Hne. apply normalize_path_same_walk.
    + destruct a; [contradiction | reflexivity].
    + rewrite strlen_append. change (strlen "/") with 1. lia.
    + intros pre _. change (a ++ "/") with (a ++ String "/" "").
      rewrite strtok_all_after. change (strtok_all "/" "") with (@nil string).
      now rewrite app_nil_r.
Qed.

Lemma normalize_path_skips_dots_and_separators_witness :
  normalize_path host_plain (Some ("/app" ++ "/" ++ "x")) PATH_MAX
    = Some "/app/x"
  /\ normalize_path host_plain (Some "docs") PATH_MAX
     = Some "/home/user/docs".
Proof.
  destruct (normalize_path_skips_dots_and_separators host_plain "/app" "x"
              PATH_MAX "/app/x") as [H1 _].
  destruct (normalize_path_skips_dots_and_separators host_plain "docs" ""
              PATH_MAX "/home/user/docs") as [_ [_ H3]].
  split; [apply H1; reflexivity | apply H3; [discriminate | reflexivity]].
Defined.

(** X4.  A component followed by [..] cancels textually: [a/x/../b] has the
    canonical form of [a/b], and [a/x/..] that of [a/], whatever [x] is on
    disk (no symbolic link is followed here). *)
Theorem normalize_path_cancels_parent (w : Host) (a x b : string) (size : Z)
    (r : string) :
  component_ok x ->
  (normalize_path w (Some (a ++ "/" ++ x ++ "/../" ++ b)) size = Some r ->
   normalize_path w (Some (a ++ "/" ++ b)) size = Some r)
  /\ (normalize_path w (Some (a ++ "/" ++ x ++ "/..")) size = Some r ->
      normalize_path w (Some (a ++ "/")) size = Some r).
Proof.
  intros Hx.
  assert (Htx : strtok_all "/" x = [x])
    by (destruct Hx as [H1 [H2 _]]; now apply strtok_all_component).
  pose proof (strlen_nonneg x) as Hx0.
  split.
  - apply normalize_path_same_walk.
    + apply (first_char_insert a (x ++ "/../" ++ b) b).
    + rewrite !strlen_append. change (strlen "/../") with 4.
      change (strlen "/") with 1. lia.
    + intros pre _.
      change (a ++ "/" ++ x ++ "/../" ++ b)
        with (a ++ String "/" (x ++ String "/" (".." ++ String "/" b))).
      change (a ++ "/" ++ b) with (a ++ String "/" b).
      rewrite !strtok_all_after, !strtok_all_split, Htx.
      rewrite !walk_components_app, (walk_one_component x _ Hx).
      change (strtok_all "/" "..") with [".."]. simpl walk_components at 2.
      now rewrite removelast_last.
  - apply normalize_path_same_walk.
    + apply (first_char_insert a (x ++ "/..") "").
    + rewrite !strlen_append. change (strlen "/..") with 3.
      change (strlen "/") with 1. lia.
    + intros pre _.
      change (a ++ "/" ++ x ++ "/..")
        with (a ++ String "/" (x ++ String "/" "..")).
      change (a ++ "/") with (a ++ String "/" "").
      rewrite !strtok_all_after, !strtok_all_split, Htx.
      rewrite !walk_components_app, (walk_one_component x _ Hx).
      change (strtok_all "/" "..") with [".."].
      change (strtok_all "/" "") with (@nil string).
      simpl. now rewrite removelast_last.
Qed.

Lemma normalize_path_cancels_parent_witness :
  normalize_path host_plain (Some ("/tmp" ++ "/" ++ "app/x")) PATH_MAX
    = Some "/tmp/app/x".
Proof.
  destruct (normalize_path_cancels_parent host_plain "/tmp" "work" "app/x"
              PATH_MAX "/tmp/app/x") as [H _].
  - repeat split; discriminate.
  - apply H. reflexivity.
Defined.

(** X5.  [..] does not climb above the root: [/../b] has the canonical
    form of [/b] and [/..] that of [/]. *)
Theorem normalize_path_root_parent (w : Host) (b : string) (size : Z)
    (r : string) :
  (normalize_path w (Some ("/../" ++ b)) size = Some r ->
   normalize_path w (Some ("/" ++ b)) size = Some r)
  /\ (normalize_path w (Some "/..") size = Some r ->
      normalize_path w (Some "/") size = Some r).
Proof.
  split.
  - apply normalize_path_same_walk.
    + reflexivity.
    + rewrite !strlen_append. change (strlen "/../") with 4.
      change (strlen "/") with 1. lia.
    + intros pre Habs.
      assert (pre = "").
      { unfold make_absolute in Habs. simpl negb in Habs. cbv iota in Habs.
        destruct (_ >=? _); [discriminate|]. injection Habs as Habs.
        now apply append_self_l in Habs. }
      subst pre.
      change ("" ++ "/../" ++ b) with (String "/" (".." ++ String "/" b)).
      change ("" ++ "/" ++ b) with (String "/" b).
      rewrite !strtok_all_leading, strtok_all_split, walk_components_app.
      reflexivity.
  - unfold normalize_path, make_absolute. simpl negb. cbv iota.
    change (strlen "/..") with 3. change (strlen "/") with 1.
    change (3 >=? PATH_MAX) with false. change (1 >=? PATH_MAX) with false.
    cbv iota. auto.
Qed.

Lemma normalize_path_root_parent_witness :
  normalize_path host_plain (Some ("/" ++ "app/x")) PATH_MAX = Some "/app/x".
Proof.
  destruct (normalize_path_root_parent host_plain "app/x" PATH_MAX "/app/x")
    as [H _].
  apply H. reflexivity.
Defined.

(* ====================================================================== *)
(** ** More on the oracle *)
(* ====================================================================== *)

(** The verdict reads the path through its candidate only. *)
Lemma is_path_blocked_by_candidate (w : Host) (p q : string) (g : Globals) :
  candidate w p = candidate w q ->
  is_path_blocked w (Some p) g = is_path_blocked w (Some q) g.
Proof. intros H. unfold is_path_blocked. now rewrite H. Qed.

(** The buffer [normalized] always holds its text and the NUL. *)
Lemma candidate_fits (w : Host) (p : string) :
  strlen (candidate w p) < PATH_MAX.
Proof.
  unfold candidate.
  destruct (normalize_path w (Some p) PATH_MAX) as [r|] eqn:E.
  - destruct (normalize_path_shape _ _ _ _ E) as [cs [_ [Hr [-> _]]]].
    destruct cs as [|c cs'] eqn:Ecs; [reflexivity|].
    rewrite <- Ecs in *.
    assert (Hne : join_components cs <> "") by (subst cs; discriminate).
    destruct (String.eqb_spec (join_components cs) ""); [contradiction|].
    apply (rebuild_fits _ _ _ _ Hr). subst cs. discriminate.
  - pose proof (strncpy_length p (Z.to_nat (PATH_MAX - 1))) as H.
    unfold strlen. apply inj_le in H. rewrite Z2Nat.id in H; [lia|].
    unfold PATH_MAX. lia.
Qed.

(** X6.  The oracle answers the same for a path and for its canonical
    form: the second pass over an already canonical text changes
    nothing. *)
Theorem verdict_of_canonical_form (w : Host) (p r : string) (g : Globals) :
  normalize_path w (Some p) PATH_MAX = Some r ->
  is_path_blocked w (Some r) g = is_path_blocked w (Some p) g.
Proof.
  intros H. apply is_path_blocked_by_candidate. unfold candidate.
  rewrite H.
  destruct (normalize_path_shape _ _ _ _ H) as [cs [Hcs [Hr [-> [Hd Hs]]]]].
  rewrite normalize_path_fixed; auto. reflexivity.
Qed.

Lemma verdict_of_canonical_form_witness :
  is_path_blocked host_plain (Some "/app/x") globals0
  = is_path_blocked host_plain (Some "/tmp/../app/./x") globals0.
Proof.
  apply (verdict_of_canonical_form host_plain "/tmp/../app/./x").
  reflexivity.
Defined.

(** The join with the working directory is what the canonicalizer reads. *)
Lemma candidate_of_relative (w : Host) (cwd p : string) :
  host_strdup_work w = true ->
  host_cwd w = Some cwd -> is_absolute cwd -> ~ is_absolute p ->
  strlen cwd + 1 + strlen p < PATH_MAX ->
  candidate w p = candidate w (cwd ++ "/" ++ p).
Proof.
  intros Hdup Hcwd [rest ->] Hrel Hlen.
  assert (H1 : make_absolute w p = Some (String "/" rest ++ "/" ++ p)).
  { unfold make_absolute, getcwd.
    rewrite (relative_first_char _ Hrel), Hcwd. simpl negb. cbv iota.
    pose proof (strlen_nonneg p).
    destruct (_ <=? _) eqn:E1; [|exfalso; zcmp E1; lia].
    destruct (_ >=? _) eqn:E2; [exfalso; zcmp E2; lia | reflexivity]. }
  assert (H2 : make_absolute w (String "/" rest ++ "/" ++ p)
               = Some (String "/" rest ++ "/" ++ p)).
  { unfold make_absolute. simpl negb. cbv iota.
    destruct (_ >=? _) eqn:E; [exfalso|reflexivity]. zcmp E.
    rewrite strlen_append in E. change ("/" ++ p) with (String "/" p) in E.
    rewrite (strlen_String _ p) in E. lia. }
  assert (Heq : normalize_path w (Some p) PATH_MAX =
                normalize_path w (Some (String "/" rest ++ "/" ++ p)) PATH_MAX)
    by (unfold normalize_path; now rewrite H1, H2).
  unfold candidate. rewrite <- Heq.
  destruct (normalize_path_of_absolute_text w p (rest ++ "/" ++ p) Hdup H1)
    as [r [Hr _]].
  - change (String "/" (rest ++ "/" ++ p))
      with (String "/" rest ++ String "/" p).
    rewrite strlen_append, (strlen_String _ p). lia.
  - now rewrite Hr.
Qed.

(** X7.  A relative path is judged as the path joined to the working
    directory: when that directory is absolute, the join is shorter than
    [PATH_MAX] and the canonicalizer gets its memory, the oracle answers
    for [p] what it answers for [cwd/p]. *)
Theorem relative_path_judged_from_cwd (w : Host) (cwd p : string)
    (g : Globals) :
  host_strdup_work w = true ->
  host_cwd w = Some cwd -> is_absolute cwd -> ~ is_absolute p ->
  strlen cwd + 1 + strlen p < PATH_MAX ->
  is_path_blocked w (Some p) g = is_path_blocked w (Some (cwd ++ "/" ++ p)) g.
Proof.
  intros Hdup Hcwd Habs Hrel Hlen.
  apply is_path_blocked_by_candidate.
  now apply candidate_of_relative.
Qed.

Lemma relative_path_judged_from_cwd_witness :
  is_path_blocked host_plain (Some "../../app/x") globals0
  = is_path_blocked host_plain (Some ("/home/user" ++ "/" ++ "../../app/x"))
      globals0.
Proof.
  apply relative_path_judged_from_cwd; try reflexivity.
  - eexists. reflexivity.
  - intros [rest H]. discriminate.
Defined.

(** Descending keeps a match. *)
Lemma prefix_blocks_descend (q c rest : string) :
  prefix_blocks q c = true -> prefix_blocks q (c ++ "/" ++ rest) = true.
Proof.
  intros H. apply prefix_blocks_rule in H. apply prefix_blocks_rule.
  right. destruct H as [-> | [r0 ->]].
  - now exists rest.
  - exists (r0 ++ "/" ++ rest). now rewrite !append_assoc.
Qed.

(** X8.  The prefix test respects component boundaries: whatever matches a
    prefix keeps matching with [/] and more appended, and a prefix followed
    by any byte other than [/] does not match. *)
Theorem prefix_component_boundary (q c rest : string) (a : ascii) :
  (prefix_blocks q c = true -> prefix_blocks q (c ++ "/" ++ rest) = true)
  /\ (a <> "/"%char -> prefix_blocks q (q ++ String a rest) = false).
Proof.
  split.
  - apply prefix_blocks_descend.
  - intros Ha. destruct (prefix_blocks q (q ++ String a rest)) eqn:E;
      [|reflexivity].
    apply prefix_blocks_rule in E. destruct E as [E | [r0 E]].
    + rewrite <- (append_nil_r q) in E at 2.
      apply append_cancel_l in E. discriminate.
    + apply append_cancel_l in E. injection E as E _. contradiction.
Qed.

Lemma prefix_component_boundary_witness :
  prefix_blocks "/app" ("/app/data" ++ "/" ++ "x") = true
  /\ prefix_blocks "/app" ("/app" ++ String "l" "ications") = false.
Proof.
  destruct (prefix_component_boundary "/app" "/app/data" "x" "l") as [H1 _].
  destruct (prefix_component_boundary "/app" "" "ications" "l") as [_ H2].
  split; [apply H1; reflexivity | apply H2; discriminate].
Defined.

(** X9.  The prefix [/] matches no canonical path but [/] itself: for a
    canonical path the byte after the prefix is the first byte of a
    component, never NUL or a second [/]. *)
Theorem root_prefix_matches_root_only (w : Host) (p r : string) :
  normalize_path w (Some p) PATH_MAX = Some r ->
  (prefix_blocks "/" r = true <-> r = "/").
Proof.
  intros H.
  destruct (normalize_path_shape _ _ _ _ H) as [cs [Hcs [_ [-> _]]]].
  destruct cs as [|c cs']; [simpl; split; reflexivity|].
  inversion Hcs as [|? ? [Hne [Hns _]] _]; subst.
  destruct c as [|x c]; [contradiction|].
  simpl in Hns. apply andb_true_iff in Hns as [Hx _].
  apply negb_true_iff in Hx.
  simpl. unfold prefix_blocks. simpl. rewrite Hx.
  split; discriminate.
Qed.

Lemma root_prefix_matches_root_only_witness :
  prefix_blocks "/" "/etc/passwd" = true <-> "/etc/passwd" = "/".
Proof.
  apply (root_prefix_matches_root_only host_plain "/etc/./passwd").
  reflexivity.
Defined.

Lemma matches_blocked_incl (l1 l2 : list string) (c : string) :
  incl l1 l2 -> matches_blocked l1 c = true -> matches_blocked l2 c = true.
Proof.
  intros Hi H. apply matches_blocked_rule in H as [q [Hin Hq]].
  apply matches_blocked_rule. exists q. auto.
Qed.

Lemma is_resolved_path_blocked_incl (w : Host) (l1 l2 : list string)
    (path : option string) :
  incl l1 l2 ->
  is_resolved_path_blocked w l1 path = true ->
  is_resolved_path_blocked w l2 path = true.
Proof.
  intros Hi. unfold is_resolved_path_blocked.
  destruct path as [p|]; [|auto].
  destruct (host_realpath w) as [rp|]; [|auto].
  destruct (rp p); [apply matches_blocked_incl, Hi|].
  destruct (_ >=? _); [auto|].
  destruct (strrchr p "/") as [[before filename]|].
  - destruct (rp _); [|auto].
    destruct (snprintf_path _ _ _) as [n full_resolved].
    destruct (_ <? _); [apply matches_blocked_incl, Hi | auto].
  - destruct (getcwd w PATH_MAX); [|auto].
    destruct (rp _); [apply matches_blocked_incl, Hi | auto].
Qed.

(** X10.  Blocking is monotone in the list: between two loaded states, the
    second holding every prefix of the first and failing closed if the
    first does, whatever the first blocks the second blocks. *)
Theorem more_prefixes_block_more (w : Host) (path : option string)
    (g1 g2 : Globals) :
  init_once g1 = true -> init_once g2 = true ->
  incl (blocked_paths g1) (blocked_paths g2) ->
  (init_failed g1 = true -> init_failed g2 = true) ->
  fst (is_path_blocked w path g1) = true ->
  fst (is_path_blocked w path g2) = true.
Proof.
  intros H1 H2 Hi Hf. rewrite !is_path_blocked_verdict. cbv zeta.
  rewrite !ensure_initialized_done by assumption.
  destruct (init_failed g1) eqn:Ef1; [now rewrite Hf|].
  rewrite orb_false_l. intros H. apply orb_true_iff. right.
  destruct path as [p|]; [|discriminate].
  apply andb_true_iff in H as [Hc H]. apply andb_true_iff. split.
  - unfold blocked_paths_count in *.
    destruct (blocked_paths g1) as [|q l1]; [discriminate|].
    destruct (blocked_paths g2); [|reflexivity].
    destruct (Hi q (or_introl eq_refl)).
  - apply orb_true_iff in H as [H | H]; apply orb_true_iff.
    + left. eapply matches_blocked_incl; eauto.
    + right. eapply is_resolved_path_blocked_incl; eauto.
Qed.

Lemma more_prefixes_block_more_witness :
  fst (is_path_blocked host_plain (Some "/app/./secret") globals_more) = true.
Proof.
  apply (more_prefixes_block_more host_plain _ globals_default globals_more);
    try reflexivity.
  - intros q [<- | [<- | []]]; simpl; auto.
  - discriminate.
Defined.

(** X11.  Symbolic links are followed: if the original [realpath] resolves
    the candidate to a path under a listed prefix the query is blocked; and
    if it cannot resolve the candidate but resolves its parent directory,
    the query is blocked when the resolved parent, [/] and the last name
    make a path under a listed prefix that fits in [PATH_MAX]. *)
Theorem symlink_resolution_blocks (w : Host) (g : Globals) (p q : string)
    (orig_realpath : string -> option string) :
  In q (blocked_paths (ensure_initialized w g)) ->
  host_realpath w = Some orig_realpath ->
  (forall resolved,
      orig_realpath (candidate w p) = Some resolved ->
      under_prefix q resolved ->
      fst (is_path_blocked w (Some p) g) = true)
  /\ (forall parent name resolved,
        orig_realpath (candidate w p) = None ->
        candidate w p = parent ++ "/" ++ name ->
        parent <> "" -> no_char "/" name = true ->
        orig_realpath parent = Some resolved ->
        strlen (resolved ++ "/" ++ name) < PATH_MAX ->
        under_prefix q (resolved ++ "/" ++ name) ->
        fst (is_path_blocked w (Some p) g) = true).
Proof.
  intros Hin Hrp.
  assert (Hres : is_resolved_path_blocked w
                   (blocked_paths (ensure_initialized w g))
                   (Some (candidate w p)) = true ->
                 fst (is_path_blocked w (Some p) g) = true).
  { intros H. rewrite is_path_blocked_verdict. cbv zeta.
    rewrite H, orb_true_r, andb_true_r. apply orb_true_iff. right.
    unfold blocked_paths_count.
    destruct (blocked_paths (ensure_initialized w g)); [destruct Hin|].
    reflexivity. }
  split.
  - intros resolved Hr Hu. apply Hres.
    unfold is_resolved_path_blocked. rewrite Hrp, Hr.
    apply matches_blocked_rule. eauto.
  - intros parent name resolved Hnone Hc Hpar Hname Hr Hfit Hu.
    apply Hres. unfold is_resolved_path_blocked. rewrite Hrp, Hnone.
    pose proof (candidate_fits w p) as Hcf.
    destruct (_ >=? _) eqn:E; [exfalso; zcmp E; lia|].
    rewrite Hc. change (parent ++ "/" ++ name) with (parent ++ String "/" name).
    rewrite strrchr_last by assumption.
    destruct (String.eqb_spec parent ""); [contradiction|].
    rewrite Hr, (snprintf_path_fits _ _ Hfit).
    apply Z.ltb_lt in Hfit. rewrite Hfit.
    apply matches_blocked_rule. eauto.
Qed.

Lemma symlink_resolution_blocks_witness :
  fst (is_path_blocked host_app_link (Some "/applications/foo") globals0)
    = true
  /\ fst (is_path_blocked host_app_dirlink (Some "/workspace/link2/new.txt")
            globals0) = true.
Proof.
  split.
  - destruct (symlink_resolution_blocks host_app_link globals0
                "/applications/foo" "/app" _ (or_introl eq_refl) eq_refl)
      as [H _].
    apply (H "/app/foo"); [reflexivity|].
    right. now exists "foo".
  - destruct (symlink_resolution_blocks host_app_dirlink globals0
                "/workspace/link2/new.txt" "/app" _ (or_introl eq_refl)
                eq_refl) as [_ H].
    apply (H "/workspace/link2" "new.txt" "/app"); try reflexivity.
    + discriminate.
    + right. now exists "new.txt".
Defined.

(* ====================================================================== *)
(** ** More on the hooks *)
(* ====================================================================== *)

Section HookShape.

Variable FS : Type.
Variable libc : Entry.t -> call -> FS -> Z -> retval * FS * Z.
Variable w : Host.

(** The value each guarded hook returns on a block is the failure value of
    its return type. *)
Lemma body_block_value (e : Entry.t) (k : guard) (v : retval) :
  body e = Guarded k v -> v = failure_value (return_type e).
Proof. destruct e; simpl; intros H; congruence. Qed.

Lemma body_symlink (e : Entry.t) : body e = SymlinkBody -> e = Entry.symlink.
Proof. destruct e; simpl; intros H; congruence. Qed.

Lemma body_symlinkat (e : Entry.t) :
  body e = SymlinkatBody -> e = Entry.symlinkat.
Proof. destruct e; simpl; intros H; congruence. Qed.

Lemma body_result_checked (e : Entry.t) :
  body e = ResultChecked -> result_checked e = true.
Proof. destruct e; simpl; intros H; congruence. Qed.

Lemma is_symlink_target_blocked_globals (target linkpath : option string)
    (g : Globals) (b : bool) (g' : Globals) :
  is_symlink_target_blocked w target linkpath g = Some (b, g') ->
  g' = g \/ g' = ensure_initialized w g.
Proof.
  unfold is_symlink_target_blocked.
  repeat match goal with
         | |- Some (_, _) = Some _ -> _ => intros [= _ <-]; now left
         | |- Some (is_path_blocked _ ?p _) = Some _ -> _ =>
             let H := fresh in
             intros [= H]; right;
             rewrite <- (is_path_blocked_globals w p g); now rewrite H
         | |- None = Some _ -> _ => discriminate
         | |- context [match ?x with _ => _ end] => destruct x
         end.
Qed.

Lemma symlinkat_target_blocked_globals (target : option string) (fd : Z)
    (linkpath : option string) (g : Globals) (b : bool) (g' : Globals) :
  symlinkat_target_blocked w target fd linkpath g = Some (b, g') ->
  g' = g \/ g' = ensure_initialized w g.
Proof.
  unfold symlinkat_target_blocked.
  destruct target as [t|]; [|intros [= _ <-]; now left].
  destruct (Ascii.eqb (char_at t 0) "/").
  - intros [= H]. right. rewrite <- (is_path_blocked_globals w (Some t) g).
    now rewrite H.
  - repeat match goal with
           | |- Some (_, _) = Some _ -> _ => intros [= _ <-]; now left
           | |- is_symlink_target_blocked _ _ _ _ = _ -> _ =>
               apply is_symlink_target_blocked_globals
           | |- context [match ?x with _ => _ end] => destruct x
           end.
Qed.

(** What any hook leaves of the shim's own state. *)
Lemma hook_globals (e : Entry.t) (c : call) (s : Sys FS) (r : retval)
    (s' : Sys FS) :
  hook libc w e c s = Returns r s' ->
  sys_globals s' = sys_globals s
  \/ sys_globals s' = ensure_initialized w (sys_globals s).
Proof.
  unfold hook, forward, call_orig, BLOCK_AND_RETURN.
  destruct (libc e c (sys_fs s) (sys_errno s)) as [[r0 fs0] errno0].
  destruct (body e) as [k v| | |].
  - pose proof (eval_guard_globals w k c (sys_globals s)) as H.
    destruct (eval_guard w k c (sys_globals s)) as [b g'].
    destruct b; intros [= _ <-]; exact H.
  - pose proof (is_path_blocked_globals w (arg_path2 c) (sys_globals s)) as H.
    destruct (is_path_blocked w (arg_path2 c) (sys_globals s)) as [b g1].
    simpl in H. subst g1. destruct b; [intros [= _ <-]; now right|].
    destruct (is_symlink_target_blocked w (arg_path c) (arg_path2 c) _)
      as [[b' g2]|] eqn:E; [|discriminate].
    apply is_symlink_target_blocked_globals in E.
    rewrite ensure_initialized_idem in E.
    destruct b'; intros [= _ <-]; simpl; right; tauto.
  - pose proof (is_path_blocked_at_globals w (arg_dirfd2 c) (arg_path2 c)
                  (sys_globals s)) as H.
    destruct (is_path_blocked_at w (arg_dirfd2 c) (arg_path2 c)
                (sys_globals s)) as [b g1].
    simpl in H. destruct b; [intros [= _ <-]; exact H|].
    destruct (symlinkat_target_blocked w (arg_path c) (arg_dirfd2 c)
                (arg_path2 c) g1) as [[b' g2]|] eqn:E; [|discriminate].
    apply symlinkat_target_blocked_globals in E.
    assert (Hg2 : g2 = sys_globals s
                  \/ g2 = ensure_initialized w (sys_globals s)).
    { destruct H as [-> | ->]; [exact E|].
      rewrite ensure_initialized_idem in E. right. tauto. }
    destruct b'; intros [= _ <-]; exact Hg2.
  - destruct r0 as [n|[result|]]; try (intros [= _ <-]; now left).
    cbn [sys_globals sys_errno sys_fs sys_forwarded].
    pose proof (is_path_blocked_globals w (Some result) (sys_globals s)) as H.
    destruct (is_path_blocked w (Some result) (sys_globals s)) as [b g1].
    simpl in H. destruct b; intros [= _ <-]; now right.
Qed.

End HookShape.

(** X12.  An allowed call is passed through: for each of the hooks with the
    plain guard-then-forward body, when the call's paths are non-null and
    the oracle judges none of them blocked, the hook forwards the call once
    to its own original, on the filesystem as it was, and hands back what
    that original gives: its result, its [errno] and its filesystem.  The
    [errno] the original starts from is left open. *)
Theorem allowed_call_is_forwarded (FS : Type)
    (libc : Entry.t -> call -> FS -> Z -> retval * FS * Z)
    (w : Host) (e : Entry.t) (k : guard) (v : retval) (c : call)
    (s : Sys FS) :
  body e = Guarded k v ->
  paths_non_null e c = true ->
  judged_blocked w e c (sys_globals s) = false ->
  exists errno_in r fs' errno' g',
    libc e c (sys_fs s) errno_in = (r, fs', errno')
    /\ hook libc w e c s =
       Returns r (mkSys g' errno' fs' (sys_forwarded s ++ [e]))
    /\ (g' = sys_globals s \/ g' = ensure_initialized w (sys_globals s)).
Proof.
  intros Hb _ Hj.
  assert (Hg : fst (eval_guard w k c (sys_globals s)) = false).
  { rewrite eval_guard_verdict. unfold judged_blocked in Hj.
    destruct e; simpl in Hb; try discriminate Hb;
      injection Hb as <- _;
      cbn [named_paths existsb oracle_verdict] in Hj;
      rewrite ?orb_false_r in Hj; try exact Hj.
    all: destruct (arg_path c); [exact Hj | reflexivity]. }
  destruct (libc e c (sys_fs s) (sys_errno s)) as [[r fs'] errno'] eqn:Hl.
  unfold hook, forward, call_orig. rewrite Hb, Hl.
  pose proof (eval_guard_globals w k c (sys_globals s)) as Hs.
  destruct (eval_guard w k c (sys_globals s)) as [b g']. simpl in *.
  subst b. exists (sys_errno s), r, fs', errno', g'.
  split; [exact Hl|]. split; [reflexivity | exact Hs].
Qed.

Lemma allowed_call_is_forwarded_witness :
  exists errno_in r fs' errno' g',
    libc_enoent Entry.stat (mkCall 0 (Some "/tmp/ok") 0 None []) tt errno_in
    = (r, fs', errno')
    /\ hook libc_enoent host_app Entry.stat
         (mkCall 0 (Some "/tmp/ok") 0 None []) sys0
       = Returns r (mkSys g' errno' fs' [Entry.stat])
    /\ (g' = globals0 \/ g' = ensure_initialized host_app globals0).
Proof.
  apply (allowed_call_is_forwarded unit libc_enoent host_app Entry.stat
           GPath (Rnum (-1)) (mkCall 0 (Some "/tmp/ok") 0 None []) sys0);
    reflexivity.
Defined.

(** X13.  Whatever the call, a hook that returns has either blocked it,
    with the failure value of its return type, [errno = EACCES], the
    filesystem untouched and the call not forwarded, or forwarded it once to
    the original of its own name, on the filesystem as it was.  In the
    second case it hands back the original's result and, the two
    result-checking hooks apart, the original's [errno]; the two
    result-checking hooks may replace a result by NULL with [EACCES].  The
    [errno] the original starts from is left open. *)
Theorem hook_blocks_or_forwards_once (FS : Type)
    (libc : Entry.t -> call -> FS -> Z -> retval * FS * Z)
    (w : Host) (e : Entry.t) (c : call) (s : Sys FS) (r : retval)
    (s' : Sys FS) :
  hook libc w e c s = Returns r s' ->
  (r = failure_value (return_type e)
   /\ sys_errno s' = EACCES
   /\ sys_fs s' = sys_fs s
   /\ sys_forwarded s' = sys_forwarded s)
  \/ (sys_forwarded s' = (sys_forwarded s ++ [e])%list
      /\ exists errno_in r0 errno0,
          libc e c (sys_fs s) errno_in = (r0, sys_fs s', errno0)
          /\ ((r = r0 /\ (result_checked e = false -> sys_errno s' = errno0))
              \/ (result_checked e = true
                  /\ r = Rptr None /\ sys_errno s' = EACCES))).
Proof.
  unfold hook, forward, call_orig, BLOCK_AND_RETURN.
  destruct (libc e c (sys_fs s) (sys_errno s)) as [[r0 fs0] errno0] eqn:Hl.
  assert (Hfw : forall g,
    Returns r0 (mkSys g errno0 fs0 (sys_forwarded s ++ [e])) = Returns r s' ->
    sys_forwarded s' = (sys_forwarded s ++ [e])%list
    /\ exists errno_in r1 errno1,
        libc e c (sys_fs s) errno_in = (r1, sys_fs s', errno1)
        /\ ((r = r1 /\ (result_checked e = false -> sys_errno s' = errno1))
            \/ (result_checked e = true
                /\ r = Rptr None /\ sys_errno s' = EACCES))).
  { intros g [= <- <-]. split; [reflexivity|].
    exists (sys_errno s), r0, errno0. split; [exact Hl|].
    left; split; reflexivity. }
  destruct (body e) as [k v| | |] eqn:Hb.
  - destruct (eval_guard w k c (sys_globals s)) as [b g'].
    destruct b; [|intros H; right; exact (Hfw _ H)].
    intros [= <- <-]. left. simpl.
    repeat split. exact (body_block_value _ _ _ Hb).
  - apply body_symlink in Hb. subst e.
    destruct (is_path_blocked w (arg_path2 c) (sys_globals s)) as [b g1].
    destruct b; [intros [= <- <-]; left; repeat split|].
    destruct (is_symlink_target_blocked w (arg_path c) (arg_path2 c) g1)
      as [[b' g2]|]; [|discriminate].
    destruct b'; [intros [= <- <-]; left; repeat split|].
    intros H; right; exact (Hfw _ H).
  - apply body_symlinkat in Hb. subst e.
    destruct (is_path_blocked_at w (arg_dirfd2 c) (arg_path2 c)
                (sys_globals s)) as [b g1].
    destruct b; [intros [= <- <-]; left; repeat split|].
    destruct (symlinkat_target_blocked w (arg_path c) (arg_dirfd2 c)
                (arg_path2 c) g1) as [[b' g2]|]; [|discriminate].
    destruct b'; [intros [= <- <-]; left; repeat split|].
    intros H; right; exact (Hfw _ H).
  - apply body_result_checked in Hb.
    destruct r0 as [n|[result|]];
      try (intros H; right; exact (Hfw _ H)).
    cbn [sys_globals sys_errno sys_fs sys_forwarded].
    destruct (is_path_blocked w (Some result) (sys_globals s)) as [b g1].
    destruct b.
    + intros [= <- <-]. right. split; [reflexivity|].
      exists (sys_errno s), (Rptr (Some result)), errno0.
      split; [exact Hl|]. right. repeat split. exact Hb.
    + intros [= <- <-]. right. split; [reflexivity|].
      exists (sys_errno s), (Rptr (Some result)), errno0.
      split; [exact Hl|]. left. split; [reflexivity|].
      intros Hn. rewrite Hb in Hn. discriminate.
Qed.

Lemma hook_blocks_or_forwards_once_witness :
  (Rnum (-1) = failure_value (return_type Entry.rename)
   /\ EACCES = EACCES /\ tt = tt /\ @nil Entry.t = [])
  \/ ([] = ([] ++ [Entry.rename])%list
      /\ exists errno_in r0 errno0,
          libc_enoent Entry.rename
            (mkCall 0 (Some "/tmp/a") 0 (Some "/app/b") []) tt errno_in
          = (r0, tt, errno0)
          /\ ((Rnum (-1) = r0
               /\ (result_checked Entry.rename = false -> EACCES = errno0))
              \/ (result_checked Entry.rename = true
                  /\ Rnum (-1) = Rptr None /\ EACCES = EACCES))).
Proof.
  exact (hook_blocks_or_forwards_once unit libc_enoent host_app Entry.rename
           (mkCall 0 (Some "/tmp/a") 0 (Some "/app/b") []) sys0
           (Rnum (-1))
           (mkSys (ensure_initialized host_app globals0) EACCES tt [])
           eq_refl).
Defined.

(** X14.  The configuration is frozen once loaded: a hook leaves the shim's
    state as it was or as the one-shot initialization makes it, and after
    the initialization has run no call changes it, whatever the
    environment has become. *)
Theorem hooks_leave_configuration (FS : Type)
    (libc : Entry.t -> call -> FS -> Z -> retval * FS * Z)
    (w : Host) (e : Entry.t) (c : call) (s : Sys FS) (r : retval)
    (s' : Sys FS) :
  hook libc w e c s = Returns r s' ->
  (sys_globals s' = sys_globals s
   \/ sys_globals s' = ensure_initialized w (sys_globals s))
  /\ (init_once (sys_globals s) = true -> sys_globals s' = sys_globals s).
Proof.
  intros H. pose proof (hook_globals _ _ _ _ _ _ _ _ H) as Hg.
  split; [exact Hg|]. intros Ho.
  rewrite ensure_initialized_done in Hg by assumption. tauto.
Qed.

Lemma hooks_leave_configuration_witness :
  sys_globals
    (mkSys (ensure_initialized host_plain globals0) EACCES tt
           (@nil Entry.t))
  = ensure_initialized host_plain globals0.
Proof.
  destruct (hooks_leave_configuration unit libc_enoent host_odd_config
              Entry.unlink (mkCall 0 (Some "/app/x") 0 None [])
              (mkSys (ensure_initialized host_plain globals0) 0 tt [])
              (Rnum (-1))
              (mkSys (ensure_initialized host_plain globals0) EACCES tt [])
              eq_refl) as [_ H].
  apply H. reflexivity.
Defined.

Lemma is_path_blocked_at_after_failed_load (w : Host) (dirfd : Z)
    (p : string) (g : Globals) :
  init_failed (ensure_initialized w g) = true ->
  fst (is_path_blocked_at w dirfd (Some p) g) = true.
Proof.
  intros H. rewrite <- is_path_blocked_at_initialized.
  now apply is_path_blocked_at_fail_closed.
Qed.

Lemma is_path_blocked_after_failed_load (w : Host) (path : option string)
    (g : Globals) :
  init_failed (ensure_initialized w g) = true ->
  fst (is_path_blocked w path g) = true.
Proof.
  intros H. rewrite is_path_blocked_verdict. cbv zeta. now rewrite H.
Qed.

(** X15.  A failed load blocks everything, for good.  The load fails when
    the working copy of the configuration cannot be allocated at the first
    use, and the fail-closed flag, once set, is never cleared.  In any state
    in which the flag is set, or will be by the pending first use, every
    guarded hook blocks every call whose path is non-null, whatever the
    path, and leaves a state of which the same holds. *)
Theorem load_failure_blocks_every_call (FS : Type)
    (libc : Entry.t -> call -> FS -> Z -> retval * FS * Z)
    (w : Host) :
  (forall g,
      (host_strdup_paths w = false /\ init_once g = false
       /\ initialized g = false)
      \/ init_failed g = true ->
      init_failed (ensure_initialized w g) = true)
  /\ (forall (s : Sys FS) e k v c,
        init_failed (ensure_initialized w (sys_globals s)) = true ->
        body e = Guarded k v ->
        arg_path c <> None ->
        exists s',
          hook libc w e c s = Returns v s'
          /\ sys_errno s' = EACCES
          /\ sys_fs s' = sys_fs s
          /\ sys_forwarded s' = sys_forwarded s
          /\ init_failed (ensure_initialized w (sys_globals s')) = true).
Proof.
  split.
  - intros g [[Hdup [Honce Hinit]] | Hf].
    + unfold ensure_initialized, init_blocked_paths.
      rewrite Honce, Hinit, Hdup. reflexivity.
    + now apply init_failed_latched.
  - intros s e k v c Hf Hb Hp.
    assert (Hblk : blocked_outcome w v s (hook libc w e c s)).
    { apply (hook_guarded_blocked _ _ _ _ k v c s Hb).
      rewrite eval_guard_verdict.
      pose proof (is_path_blocked_after_failed_load w (arg_path c) _ Hf)
        as H1.
      destruct (arg_path c) as [p|]; [|contradiction].
      pose proof (is_path_blocked_at_after_failed_load w (arg_dirfd c) p _ Hf)
        as H2.
      destruct k; try exact H1; try exact H2;
        first [rewrite H1 | rewrite H2]; reflexivity. }
    destruct Hblk as [g' [-> Hg']]. eexists. split; [reflexivity|].
    cbn [sys_errno sys_fs sys_forwarded sys_globals].
    repeat split.
    destruct Hg' as [-> | ->]; [exact Hf|].
    now rewrite ensure_initialized_idem.
Qed.

Lemma load_failure_blocks_every_call_witness :
  init_failed (ensure_initialized host_plain globals_failed) = true
  /\ exists s',
      hook libc_echo host_plain Entry.open
        (mkCall 0 (Some "/tmp/ok") 0 None [])
        (mkSys globals_failed 0 tt []) = Returns (Rnum (-1)) s'
      /\ sys_errno s' = EACCES
      /\ sys_fs s' = tt
      /\ sys_forwarded s' = []
      /\ init_failed (ensure_initialized host_plain (sys_globals s')) = true.
Proof.
  destruct (load_failure_blocks_every_call unit libc_echo host_plain)
    as [HA HB].
  split.
  - apply HA. right. reflexivity.
  - apply (HB (mkSys globals_failed 0 tt []) Entry.open GPath);
      [reflexivity | reflexivity | discriminate].
Defined.

(** X16.  A symbolic link whose target is an absolute path that the oracle
    blocks is not created, by [symlink] or by [symlinkat], wherever the
    (non-null) link path would put it: the call returns [-1] with [EACCES]
    and is not forwarded. *)
Theorem symlink_absolute_target_blocked (FS : Type)
    (libc : Entry.t -> call -> FS -> Z -> retval * FS * Z)
    (w : Host) (e : Entry.t) (c : call) (s : Sys FS) (t lp : string) :
  e = Entry.symlink \/ e = Entry.symlinkat ->
  arg_path c = Some t -> arg_path2 c = Some lp -> is_absolute t ->
  fst (is_path_blocked w (Some t) (sys_globals s)) = true ->
  blocked_outcome w (Rnum (-1)) s (hook libc w e c s).
Proof.
  intros He Ht _ [rest ->] Hblk.
  assert (Hany : forall g1,
    g1 = sys_globals s \/ g1 = ensure_initialized w (sys_globals s) ->
    is_path_blocked w (Some (String "/" rest)) g1
    = (true, ensure_initialized w (sys_globals s))).
  { intros g1 Hg1.
    pose proof (is_path_blocked_globals w (Some (String "/" rest)) g1) as H2.
    assert (H1 : fst (is_path_blocked w (Some (String "/" rest)) g1) = true).
    { destruct Hg1 as [-> | ->]; [exact Hblk|].
      now rewrite is_path_blocked_initialized. }
    destruct (is_path_blocked w (Some (String "/" rest)) g1) as [b g2].
    simpl in *. subst b g2. f_equal.
    destruct Hg1 as [-> | ->];
      [reflexivity | apply ensure_initialized_idem]. }
  destruct He as [-> | ->]; unfold hook; cbn [body]; rewrite Ht.
  - pose proof (is_path_blocked_globals w (arg_path2 c) (sys_globals s)) as H.
    destruct (is_path_blocked w (arg_path2 c) (sys_globals s)) as [b g1].
    simpl in H. subst g1. destruct b; [apply block_outcome; now right|].
    unfold is_symlink_target_blocked.
    change (Ascii.eqb (char_at (String "/" rest) 0) "/") with true.
    cbv iota. rewrite Hany by now right.
    apply block_outcome. now right.
  - pose proof (is_path_blocked_at_globals w (arg_dirfd2 c) (arg_path2 c)
                  (sys_globals s)) as H.
    destruct (is_path_blocked_at w (arg_dirfd2 c) (arg_path2 c)
                (sys_globals s)) as [b g1].
    simpl in H. destruct b; [now apply block_outcome|].
    unfold symlinkat_target_blocked.
    change (Ascii.eqb (char_at (String "/" rest) 0) "/") with true.
    cbv iota. rewrite Hany by exact H.
    apply block_outcome. now right.
Qed.

Lemma symlink_absolute_target_blocked_witness :
  blocked_outcome host_app (Rnum (-1)) sys0
    (hook libc_echo host_app Entry.symlinkat
       (mkCall 0 (Some "/app/secret") 7 (Some "/tmp/link") []) sys0).
Proof.
  apply (symlink_absolute_target_blocked unit libc_echo host_app
           Entry.symlinkat _ sys0 "/app/secret" "/tmp/link").
  - now right.
  - reflexivity.
  - reflexivity.
  - eexists. reflexivity.
  - reflexivity.
Defined.

(* ====================================================================== *)
(** ** More on the loader and the descriptor resolver *)
(* ====================================================================== *)

Lemma kept_tokens_ext (w1 w2 : Host) (tokens : list string) (k : nat) :
  (forall i, host_strdup_token w1 i = host_strdup_token w2 i) ->
  kept_tokens w1 tokens k = kept_tokens w2 tokens k.
Proof.
  intros H. revert k. induction tokens as [|t ts IH]; intros k; simpl;
    [reflexivity|].
  now rewrite H, IH.
Qed.

(** X17.  The loader reads the configured text only through its non-empty
    [:]-separated tokens: a doubled, leading or trailing [:] changes
    nothing, and two environments whose texts split into the same tokens
    (allocations and debug variable alike) load the same state. *)
Theorem configuration_read_by_tokens (w1 w2 : Host) (a b : string) :
  strtok_all ":" (a ++ "::" ++ b) = strtok_all ":" (a ++ ":" ++ b)
  /\ strtok_all ":" (":" ++ a) = strtok_all ":" a
  /\ strtok_all ":" (a ++ ":") = strtok_all ":" a
  /\ (host_strdup_paths w1 = host_strdup_paths w2 ->
      (forall k, host_strdup_token w1 k = host_strdup_token w2 k) ->
      host_getenv w1 "SANDBOX_DEBUG" = host_getenv w2 "SANDBOX_DEBUG" ->
      strtok_all ":" (configured_paths w1)
        = strtok_all ":" (configured_paths w2) ->
      ensure_initialized w1 globals0 = ensure_initialized w2 globals0).
Proof.
  split; [|split; [|split]].
  - change (a ++ "::" ++ b) with (a ++ String ":" (String ":" b)).
    change (a ++ ":" ++ b) with (a ++ String ":" b).
    rewrite !strtok_all_split. reflexivity.
  - reflexivity.
  - change (a ++ ":") with (a ++ String ":" "").
    rewrite strtok_all_split. apply app_nil_r.
  - intros Hp Ht Hd Hc. rewrite !loader_state, Hp, Hd, Hc.
    now rewrite (kept_tokens_ext w1 w2 _ _ Ht).
Qed.

Lemma configuration_read_by_tokens_witness :
  ensure_initialized (mkHost (env_paths ":/app::/.apps_data:") true
                        (fun _ => true) true None None None) globals0
  = ensure_initialized host_plain globals0.
Proof.
  destruct (configuration_read_by_tokens
              (mkHost (env_paths ":/app::/.apps_data:") true
                 (fun _ => true) true None None None)
              host_plain "" "") as [_ [_ [_ H]]].
  apply H; reflexivity.
Defined.

(** X18.  A descriptor open on the working directory is as good as
    [AT_FDCWD]: when the descriptor's [/proc/self/fd] entry reads as the
    working directory, that directory is absolute, the join with the
    relative name is shorter than [PATH_MAX] and the canonicalizer gets its
    memory, the descriptor-relative query answers what the query with
    [AT_FDCWD] answers. *)
Theorem descriptor_on_cwd_like_at_fdcwd (w : Host) (dirfd : Z)
    (cwd p : string) (g : Globals)
    (orig_readlink : string -> option string) :
  host_strdup_work w = true ->
  host_cwd w = Some cwd -> is_absolute cwd ->
  host_readlink w = Some orig_readlink ->
  orig_readlink (proc_path dirfd) = Some cwd ->
  ~ is_absolute p ->
  strlen cwd + 1 + strlen p < PATH_MAX ->
  is_path_blocked_at w dirfd (Some p) g
  = is_path_blocked_at w AT_FDCWD (Some p) g.
Proof.
  intros Hdup Hcwd Habs Hrl Htext Hrel Hlen.
  pose proof (strlen_nonneg p) as Hp.
  assert (Hcut : strncpy cwd (Z.to_nat (PATH_MAX - 1)) = cwd).
  { apply strncpy_short. unfold strlen in *. unfold PATH_MAX in *. lia. }
  assert (Hat : is_path_blocked_at w AT_FDCWD (Some p) g
                = is_path_blocked w (Some p) g).
  { unfold is_path_blocked_at. rewrite Z.eqb_refl.
    destruct (Ascii.eqb _ _); reflexivity. }
  assert (Hj : is_path_blocked w (Some p) g
               = is_path_blocked w (Some (cwd ++ "/" ++ p)) g)
    by (apply is_path_blocked_by_candidate, candidate_of_relative;
        assumption).
  rewrite Hat, Hj.
  unfold is_path_blocked_at, call_readlink, join_slash.
  rewrite (relative_first_char _ Hrel).
  destruct (dirfd =? AT_FDCWD) eqn:Efd.
  - exact Hj.
  - rewrite Hrl, Htext, Hcut.
    assert (Hfit : strlen (cwd ++ "/" ++ p) < PATH_MAX).
    { rewrite strlen_append. change ("/" ++ p) with (String "/" p).
      rewrite (strlen_String _ p). lia. }
    rewrite (snprintf_path_fits _ _ Hfit).
    destruct (_ >=? _) eqn:E; [exfalso|reflexivity]. zcmp E. lia.
Qed.

Lemma descriptor_on_cwd_like_at_fdcwd_witness :
  is_path_blocked_at
    (mkHost no_env true (fun _ => true) true (Some "/home/user")
       (Some resolves_nothing)
       (Some (fun p => if String.eqb p "/proc/self/fd/5"
                       then Some "/home/user" else None)))
    5 (Some "../../app/x") globals0
  = is_path_blocked_at
      (mkHost no_env true (fun _ => true) true (Some "/home/user")
         (Some resolves_nothing)
         (Some (fun p => if String.eqb p "/proc/self/fd/5"
                         then Some "/home/user" else None)))
      AT_FDCWD (Some "../../app/x") globals0.
Proof.
  eapply descriptor_on_cwd_like_at_fdcwd; try reflexivity.
  - eexists. reflexivity.
  - intros [rest H]. discriminate.
Defined.

(* ====================================================================== *)
(** ** Below a blocked path, and without symbolic links *)
(* ====================================================================== *)

(** The value of [normalize_path] on an absolute path that fits. *)
Lemma normalize_path_absolute_value (w : Host) (rest : string) :
  host_strdup_work w = true ->
  strlen (String "/" rest) < PATH_MAX ->
  normalize_path w (Some (String "/" rest)) PATH_MAX =
  Some (let cs := walk_components (strtok_all "/" (String "/" rest)) [] in
        if String.eqb (join_components cs) "" then "/"
        else join_components cs).
Proof.
  intros Hdup Hlen. unfold normalize_path, make_absolute.
  change (PATH_MAX =? 0) with false. simpl negb. cbv iota.
  destruct (_ >=? _) eqn:E; [exfalso; zcmp E; lia|].
  rewrite Hdup. cbn [negb]. cbv zeta.
  set (cs := walk_components (strtok_all "/" (String "/" rest)) []).
  assert (Hw : strlen (join_components cs) <= strlen (String "/" rest)).
  { pose proof (walk_components_weight
                  (strtok_all "/" (String "/" rest)) []) as H1.
    pose proof (strtok_all_weight_absolute rest) as H2.
    fold cs in H1. simpl join_components in H1 at 3.
    change (strlen "") with 0 in H1. rewrite Z.add_0_r in H1.
    exact (Z.le_trans _ _ _ H1 H2). }
  clearbody cs.
  rewrite rebuild_enough_room; [|change (strlen "") with 0; lia].
  reflexivity.
Qed.

(** X19.  Blocking is inherited downwards: if an absolute path has a
    canonical form other than [/] that a listed prefix matches, then the
    path with [/] and one more component appended is blocked as well
    (lengths permitting, and the canonicalizer getting its memory). *)
Theorem below_a_blocked_path (w : Host) (g : Globals) (p c q : string) :
  host_strdup_work w = true ->
  is_absolute p -> component_ok c ->
  strlen p + 1 + strlen c < PATH_MAX ->
  In q (blocked_paths (ensure_initialized w g)) ->
  under_prefix q (candidate w p) -> candidate w p <> "/" ->
  fst (is_path_blocked w (Some (p ++ "/" ++ c)) g) = true.
Proof.
  intros Hdup [rest ->] Hc Hlen Hin Hu Hroot.
  pose proof (strlen_nonneg c) as Hc0.
  apply (is_path_blocked_on_match w g _ q Hin).
  assert (H1 : candidate w (String "/" rest) =
               let cs := walk_components
                           (strtok_all "/" (String "/" rest)) [] in
               if String.eqb (join_components cs) "" then "/"
               else join_components cs).
  { unfold candidate. rewrite normalize_path_absolute_value; auto. lia. }
  assert (H2 : candidate w (String "/" rest ++ "/" ++ c) =
               let cs := walk_components
                           (strtok_all "/" (String "/" (rest ++ "/" ++ c)))
                           [] in
               if String.eqb (join_components cs) "" then "/"
               else join_components cs).
  { unfold candidate.
    change (String "/" rest ++ "/" ++ c) with (String "/" (rest ++ "/" ++ c)).
    rewrite normalize_path_absolute_value; auto.
    change (String "/" (rest ++ "/" ++ c))
      with (String "/" rest ++ String "/" c).
    rewrite strlen_append, (strlen_String _ c). lia. }
  rewrite H2. rewrite H1 in Hu, Hroot. cbv zeta in *.
  change (String "/" (rest ++ "/" ++ c))
    with (String "/" rest ++ String "/" c).
  rewrite strtok_all_split, walk_components_app.
  destruct Hc as [Hne [Hns Hd]].
  rewrite (strtok_all_component c Hne Hns).
  rewrite walk_one_component by (repeat split; tauto).
  set (cs := walk_components (strtok_all "/" (String "/" rest)) []) in *.
  rewrite join_components_app.
  destruct (String.eqb_spec (join_components cs) "") as [E|E];
    [contradiction|].
  destruct (String.eqb_spec (join_components cs ++ join_components [c]) "")
    as [E2|_]; [apply append_eq_nil in E2; tauto|].
  simpl join_components. rewrite append_nil_r.
  apply prefix_blocks_rule. apply prefix_blocks_rule in Hu.
  change (String "/" c) with ("/" ++ c).
  exact (prefix_blocks_descend _ _ _ Hu).
Qed.

Lemma below_a_blocked_path_witness :
  fst (is_path_blocked host_app (Some ("/tmp/../app/data" ++ "/" ++ "x"))
         globals0) = true.
Proof.
  apply (below_a_blocked_path host_app globals0 "/tmp/../app/data" "x"
           "/app"); try reflexivity.
  - eexists. reflexivity.
  - repeat split; discriminate.
  - left. reflexivity.
  - right. now exists "data".
  - discriminate.
Defined.

(** X20.  Where nothing is a symbolic link the decision is textual: if the
    original [realpath] answers the candidate itself and the fail-closed
    flag is clear, the oracle blocks the path exactly when a listed prefix
    matches the candidate. *)
Theorem without_links_decision_is_textual (w : Host) (g : Globals)
    (p : string) (orig_realpath : string -> option string) :
  init_failed (ensure_initialized w g) = false ->
  host_realpath w = Some orig_realpath ->
  orig_realpath (candidate w p) = Some (candidate w p) ->
  (fst (is_path_blocked w (Some p) g) = true <->
   exists q, In q (blocked_paths (ensure_initialized w g))
             /\ under_prefix q (candidate w p)).
Proof.
  intros Hf Hrp Hid. rewrite is_path_blocked_verdict. cbv zeta.
  rewrite Hf, orb_false_l.
  unfold is_resolved_path_blocked. rewrite Hrp, Hid, orb_diag.
  rewrite andb_true_iff, matches_blocked_rule. split; [tauto|].
  intros H. split; [|exact H]. unfold blocked_paths_count.
  destruct H as [q [Hin _]].
  destruct (blocked_paths (ensure_initialized w g)); [destruct Hin|].
  reflexivity.
Qed.

Lemma without_links_decision_is_textual_witness :
  fst (is_path_blocked
         (mkHost no_env true (fun _ => true) true (Some "/home/user")
            (Some (fun p => Some p)) (Some resolves_nothing))
         (Some "/applications/foo") globals0) = true
  <-> exists q,
      In q ["/app"; "/.apps_data"] /\ under_prefix q "/applications/foo".
Proof.
  apply (without_links_decision_is_textual
           (mkHost no_env true (fun _ => true) true (Some "/home/user")
              (Some (fun p => Some p)) (Some resolves_nothing))
           globals0 "/applications/foo" (fun p => Some p));
    reflexivity.
Defined.
